(** * SqlHelper: a shallow embedding of [src/index.ts]

    The TypeScript class [SqlHelper] keeps two static fields (the cached
    pool promise and the configuration) and talks to the [mssql] driver.
    The embedding below keeps the static fields in a [State] record, models
    the driver as an oracle ([Driver]) whose calls are recorded in a trace,
    and writes every [async] method as a computation in a small
    state-and-exception monad ([Async]).  JavaScript numbers are IEEE 754
    doubles, i.e. Rocq's primitive [float]. *)

From Stdlib Require Import Floats Ascii.
From stdpp Require Import gmap strings list fin_maps.

(** ** JavaScript values *)

(** A value of TypeScript type [any], as far as this program looks at it. *)
Inductive JsValue :=
| VUndefined
| VNull
| VBool (b : bool)
| VNum (n : float)
| VStr (s : string)
| VObj (ref : nat).

(** ToBoolean.  The falsy values are [undefined], [null], [false], [+0],
    [-0], [NaN] and the empty string. *)
Class Truthy (T : Type) := truthy : T → bool.

#[export] Instance number_truthy : Truthy float :=
  λ n, negb ((n =? 0)%float || is_nan n).

#[export] Instance string_truthy : Truthy string :=
  λ s, match s with EmptyString => false | String _ _ => true end.

#[export] Instance boolean_truthy : Truthy bool := λ b, b.

#[export] Instance any_truthy : Truthy JsValue :=
  λ v, match v with
       | VUndefined | VNull => false
       | VBool b => truthy b
       | VNum n => truthy n
       | VStr s => truthy s
       | VObj _ => true
       end.

(** [undefined] is falsy. *)
#[export] Instance optional_truthy {T} `{Truthy T} : Truthy (option T) :=
  λ a, match a with Some v => truthy v | None => false end.

(** An object (a row, an options bag) is always truthy. *)
#[export] Instance object_truthy {T} : Truthy (gmap string T) := λ _, true.

(** [a || b] where [a : T | undefined] and [b : T]. *)
Definition js_or {T} `{Truthy T} (a : option T) (b : T) : T :=
  match a with
  | Some v => if truthy v then v else b
  | None => b
  end.

(** [a || null] where [a : T | undefined | null]: the result has type
    [T | null], [None] standing for [null]. *)
Definition js_or_null {T} `{Truthy T} (a : option T) : option T :=
  match a with
  | Some v => if truthy v then Some v else None
  | None => None
  end.

(** [{ ...base, ...overlay }]: the properties of [overlay] win.  Spreading
    [undefined] adds nothing. *)
Definition js_spread {T} (base : gmap string T) (overlay : option (gmap string T))
  : gmap string T :=
  default ∅ overlay ∪ base.

(** The names every ordinary object inherits from [Object.prototype]. *)
Definition Object_prototype : list string :=
  ["constructor"; "__defineGetter__"; "__defineSetter__"; "hasOwnProperty";
   "__lookupGetter__"; "__lookupSetter__"; "isPrototypeOf";
   "propertyIsEnumerable"; "toString"; "valueOf"; "__proto__";
   "toLocaleString"].

(** [row[key]] for a computed [key] on an ordinary object whose own
    properties are [row]: the own property when there is one; otherwise the
    member inherited from [Object.prototype] when [key] names one (a
    function, or the prototype itself for [__proto__]: an object, named
    here by its place in the list); otherwise [undefined]. *)
Definition js_get {T} (any : T → JsValue) (row : gmap string T) (key : string)
  : option JsValue :=
  match row !! key with
  | Some v => Some (any v)
  | None =>
      match list_find (λ k, k = key) Object_prototype with
      | Some (n, _) => Some (VObj n)
      | None => None
      end
  end.

(** ** Types of [index.ts] *)

(** [sql.ISqlType]: an opaque driver object, named by its SQL type. *)
Definition ISqlType := string.

Record SqlParameter := {
  name : string;
  value : JsValue;
  type : option ISqlType;
}.

Record SqlConfig := {
  user : string;
  password : string;
  server : string;
  database : string;
  options : option (gmap string JsValue);
  pool : option (gmap string JsValue);
}.

Inductive QueryType := Text | StoredProcedure.

#[export] Instance QueryType_eq_dec : EqDecision QueryType.
Proof. solve_decision. Defined.

(** ** The [mssql] driver, seen from [SqlHelper] *)

(** What the driver throws or rejects with. *)
Record Err := { err_name : string; err_message : string }.

(** A [sql.ConnectionPool] object: its identity and the configuration its
    constructor was given. *)
Record ConnectionPool := {
  pool_id : nat;
  pool_config : option SqlConfig;
}.

(** One [request.input(...)] call, with or without the type argument. *)
Inductive Input :=
| Input3 (name : string) (type : ISqlType) (value : JsValue)
| Input2 (name : string) (value : JsValue).

(** A [sql.Request]: the pool it came from and the inputs bound so far. *)
Record Request := {
  req_pool : ConnectionPool;
  req_inputs : list Input;
}.

(** [IResult<T>] / [IProcedureResult<T>].  [recordset] and [recordsets] may
    be [undefined] (the source guards both); [returnValue] is [any] and is
    [undefined] for a plain query. *)
Record IResult (R : Type) := {
  recordsets : option (list (list R));
  recordset : option (list R);
  rowsAffected : list float;
  returnValue : JsValue;
}.
Arguments recordsets {R} _.
Arguments recordset {R} _.
Arguments rowsAffected {R} _.
Arguments returnValue {R} _.

(** A row is an object from column names to values: [gmap string T] when
    every field has type [T]. *)

(** The calls [SqlHelper] makes on the driver that leave the request:
    constructions, connects and dispatches.  The [request.input] calls are
    kept in the request they build. *)
Inductive DriverEvent :=
| NewConnectionPool (cfg : option SqlConfig)
| Connect (p : ConnectionPool)
| RequestExecute (r : Request) (procedure : string)
| RequestQuery (r : Request) (command : string).

(** The driver's answers.  [construct] is the constructor
    [new sql.ConnectionPool(cfg)] ([Some e]: it throws [e]); [connect] is how
    [pool.connect()] settles; [input] is [request.input(..)] on a request
    with the inputs bound so far ([Some e]: it throws [e]); [execute] and
    [query] are how [request.execute(..)] and [request.query(..)] settle. *)
Record Driver (R : Type) := {
  construct : option SqlConfig → option Err;
  connect : ConnectionPool → Err + ConnectionPool;
  input : Request → Input → option Err;
  execute : Request → string → Err + IResult R;
  query : Request → string → Err + IResult R;
}.
Arguments construct {R} _ _.
Arguments connect {R} _ _.
Arguments input {R} _ _ _.
Arguments execute {R} _ _ _.
Arguments query {R} _ _ _.

(** ** Program state *)

(** The promise [getPool] caches is the end of the chain
    [connect().then(..).catch(..)].  It is shared by reference between the
    static field and every caller that received it, so promises live in a
    heap and are named by their index. *)
Definition PromiseId := nat.

Inductive PromiseState :=
| Pending (p : ConnectionPool)
| Fulfilled (p : ConnectionPool)
| Rejected (e : Err).

Record State := {
  poolPromise : option PromiseId;      (* SqlHelper.poolPromise *)
  config : option SqlConfig;           (* SqlHelper.config *)
  promises : list PromiseState;        (* heap of getPool promises *)
  trace : list DriverEvent;            (* driver calls, oldest first *)
  console : list (string * Err);       (* console.error lines, oldest first *)
}.

(** The state when the module has just been loaded. *)
Definition initial : State :=
  {| poolPromise := None; config := None; promises := []; trace := [];
     console := [] |}.

Definition set_poolPromise (v : option PromiseId) (h : State) : State :=
  {| poolPromise := v; config := config h; promises := promises h;
     trace := trace h; console := console h |}.

Definition set_config (v : option SqlConfig) (h : State) : State :=
  {| poolPromise := poolPromise h; config := v; promises := promises h;
     trace := trace h; console := console h |}.

Definition set_promises (v : list PromiseState) (h : State) : State :=
  {| poolPromise := poolPromise h; config := config h; promises := v;
     trace := trace h; console := console h |}.

Definition emit (ev : DriverEvent) (h : State) : State :=
  {| poolPromise := poolPromise h; config := config h; promises := promises h;
     trace := trace h ++ [ev]; console := console h |}.

Definition console_error (msg : string) (e : Err) (h : State) : State :=
  {| poolPromise := poolPromise h; config := config h; promises := promises h;
     trace := trace h; console := console h ++ [(msg, e)] |}.

(** ** Initialisation *)

Definition default_options : gmap string JsValue :=
  {[ "trustServerCertificate" := VBool true;
     "trustedConnection" := VBool true;
     "enableArithAbort" := VBool true ]}.

Definition default_pool : gmap string JsValue :=
  {[ "max" := VNum 60%float;
     "min" := VNum 5%float;
     "idleTimeoutMillis" := VNum 60000%float ]}.

(** [SqlHelper.initialize] (index.ts 37-53). *)
Definition initialize (cfg : SqlConfig) (h : State) : State :=
  set_config
    (Some {| user := user cfg;
             password := password cfg;
             server := server cfg;
             database := database cfg;
             options := Some (js_spread default_options (options cfg));
             pool := Some (js_spread default_pool (pool cfg)) |})
    h.

(** [SqlHelper.initializeFromEnv] (index.ts 58-65).  [env] is [process.env],
    a plain key-value source. *)
Definition initializeFromEnv (env : gmap string string) (h : State) : State :=
  initialize
    {| user := js_or (env !! "db_user") "";
       password := js_or (env !! "db_password") "";
       server := js_or (env !! "server") "";
       database := js_or (env !! "database") "";
       options := None;
       pool := None |}
    h.

(** ** Asynchronous computations, run one at a time *)

(** How a call ends: it returns, it throws (an [async] function: its promise
    rejects), or it stays suspended on a promise that nothing settles. *)
Inductive Outcome (A : Type) :=
| Returned (a : A)
| Thrown (e : Err)
| Suspended.
Arguments Returned {A} _.
Arguments Thrown {A} _.
Arguments Suspended {A}.

Definition Async (A : Type) : Type := State → State * Outcome A.

Definition ret {A} (a : A) : Async A := λ h, (h, Returned a).

Definition throw {A} (e : Err) : Async A := λ h, (h, Thrown e).

Definition bind {A B} (m : Async A) (k : A → Async B) : Async B :=
  λ h, match m h with
       | (h', Returned a) => k a h'
       | (h', Thrown e) => (h', Thrown e)
       | (h', Suspended) => (h', Suspended)
       end.

(** [try { m } catch (e) { handler e }]. *)
Definition try_catch {A} (m : Async A) (handler : Err → Async A) : Async A :=
  λ h, match m h with
       | (h', Thrown e) => handler e h'
       | r => r
       end.

(** A statement that only changes the state. *)
Definition exec (f : State → State) : Async unit := λ h, (f h, Returned tt).

(** Lifting what a driver call gave: a value, or an exception to throw. *)
Definition settle_with {A} (r : Err + A) : Async A :=
  match r with
  | inl e => throw e
  | inr a => ret a
  end.

Notation "'let*' x ':=' m 'in' k" := (bind m (λ x, k))
  (at level 10, x name, m at level 100, k at level 200).
Notation "m ';;' k" := (bind m (λ _, k))
  (at level 100, k at level 200, right associativity).

(** The projection a shaper applies to the result of [executeQuery]. *)
Definition map_outcome {A B} (f : A → B) (o : Outcome A) : Outcome B :=
  match o with
  | Returned a => Returned (f a)
  | Thrown e => Thrown e
  | Suspended => Suspended
  end.

(** ** PoolManager *)

Section Pool.
Context {R : Type} (drv : Driver R).

(** [SqlHelper.getPool] (index.ts 70-83).  Not an [async] function: it
    returns the promise itself, or throws when the driver's constructor
    does.  The [then]/[catch] reactions registered here run in [settle]. *)
Definition getPool : Async PromiseId := λ h,
  match poolPromise h with
  | None =>
      let p := {| pool_id := length (trace h); pool_config := config h |} in
      let h1 := emit (NewConnectionPool (config h)) h in
      match construct drv (config h) with
      | Some e => (h1, Thrown e)
      | None =>
          let h2 := emit (Connect p) h1 in
          let d := length (promises h2) in
          let h3 := set_promises (promises h2 ++ [Pending p]) h2 in
          (set_poolPromise (Some d) h3, Returned d)
      end
  | Some d => (h, Returned d)
  end.

(** The reactions of the promise [d] that [getPool] built, run once the
    driver has settled [connect()]:
    [.then(pool => pool)] passes the pool on;
    [.catch(err => { console.error(..); poolPromise = null; throw err })]
    clears the static field, whatever it holds, and rejects [d].
    A promise settles once; a settled or unknown [d] is left alone. *)
Definition settle (d : PromiseId) (h : State) : State :=
  match promises h !! d with
  | Some (Pending p) =>
      match connect drv p with
      | inr pool => set_promises (<[d := Fulfilled pool]> (promises h)) h
      | inl err =>
          let h := console_error "Database connection failed" err h in
          let h := set_poolPromise None h in
          set_promises (<[d := Rejected err]> (promises h)) h
      end
  | _ => h
  end.

(** [await d] with no other caller running: the driver settles [d], then
    the caller resumes with the result. *)
Definition await (d : PromiseId) : Async ConnectionPool := λ h,
  let h := settle d h in
  match promises h !! d with
  | Some (Fulfilled pool) => (h, Returned pool)
  | Some (Rejected err) => (h, Thrown err)
  | Some (Pending _) | None => (h, Suspended)
  end.

(** [await SqlHelper.getPool()]. *)
Definition await_getPool : Async ConnectionPool :=
  let* d := getPool in
  await d.

(** [SqlHelper.getConnection] (index.ts 85-92). *)
Definition getConnection : Async ConnectionPool :=
  try_catch
    (λ h,
       let p := {| pool_id := length (trace h); pool_config := config h |} in
       let h1 := emit (NewConnectionPool (config h)) h in
       match construct drv (config h) with
       | Some e => (h1, Thrown e)
       | None => settle_with (connect drv p) (emit (Connect p) h1)
       end)
    (λ error,
       exec (console_error "Database connection error:" error);;
       throw error).

(** Callers interleave with each other and with the driver.  Between two
    suspension points a caller calls [initialize] or [getPool], calls the
    driver (a request of [executeQuery], a pool of [getConnection]) or logs
    an error; or the driver settles a connect and the reactions of its
    promise run. *)
Inductive Action :=
| CallInitialize (cfg : SqlConfig)
| CallGetPool
| Settle (d : PromiseId)
| DriverCalled (ev : DriverEvent)
| ErrorLogged (msg : string) (e : Err).

Definition step (a : Action) (h : State) : State :=
  match a with
  | CallInitialize cfg => initialize cfg h
  | CallGetPool => fst (getPool h)
  | Settle d => settle d h
  | DriverCalled ev => emit ev h
  | ErrorLogged msg e => console_error msg e h
  end.

Definition run (acts : list Action) (h : State) : State :=
  foldl (λ h a, step a h) h acts.

End Pool.

(** ** ExecutionPrimitive and ParameterBinder *)

(** [pool.request()]. *)
Definition pool_request (p : ConnectionPool) : Request :=
  {| req_pool := p; req_inputs := [] |}.

(** [request.input(..)]: it throws when the driver refuses the input on
    this request; otherwise the request remembers the input. *)
Definition request_input {R} (drv : Driver R) (request : Request) (i : Input)
  : Err + Request :=
  match input drv request i with
  | Some e => inl e
  | None =>
      inr {| req_pool := req_pool request;
             req_inputs := req_inputs request ++ [i] |}
  end.

(** [list.forEach(body)] where [body] updates [s] or throws: the first
    throw leaves the loop. *)
Fixpoint forEach {A S} (body : S → A → Err + S) (s : S) (l : list A)
  : Err + S :=
  match l with
  | [] => inr s
  | a :: l =>
      match body s a with
      | inl e => inl e
      | inr s' => forEach body s' l
      end
  end.

(** [request.execute(procedure)] and [request.query(command)]. *)
Definition request_execute {R} (drv : Driver R) (request : Request)
    (procedure : string) : Async (IResult R) :=
  λ h, settle_with (execute drv request procedure)
         (emit (RequestExecute request procedure) h).

Definition request_query {R} (drv : Driver R) (request : Request)
    (command : string) : Async (IResult R) :=
  λ h, settle_with (query drv request command)
         (emit (RequestQuery request command) h).

(** The body of the [forEach] of [executeQuery] (index.ts 107-113). *)
Definition bind_parameter {R} (drv : Driver R) (request : Request)
    (param : SqlParameter) : Err + Request :=
  match type param with
  | Some t => request_input drv request (Input3 (name param) t (value param))
  | None => request_input drv request (Input2 (name param) (value param))
  end.

(** [SqlHelper.executeQuery] (index.ts 97-124). *)
Definition executeQuery {R} (drv : Driver R) (commandType : QueryType)
    (query : string) (parameters : option (list SqlParameter))
  : Async (IResult R) :=
  try_catch
    (let* pool := await_getPool drv in
     let request := pool_request pool in
     let* request :=
       settle_with
         match parameters with
         | Some ps => forEach (bind_parameter drv) request ps
         | None => inr request
         end in
     if decide (commandType = StoredProcedure)
     then request_execute drv request query
     else request_query drv request query)
    (λ error,
       exec (console_error "Query execution error:" error);;
       throw error).

(** ** ResultShapers *)

(** [SqlHelper.executeDataset] (index.ts 127-134): [result.recordset || []]. *)
Definition executeDataset {T} (drv : Driver T) (commandType : QueryType)
    (query : string) (parameters : option (list SqlParameter))
  : Async (list T) :=
  let* result := executeQuery drv commandType query parameters in
  ret (default [] (recordset result)).

(** [SqlHelper.executeMultipleDatasets] (index.ts 136-143). *)
Definition executeMultipleDatasets {T} (drv : Driver T) (commandType : QueryType)
    (query : string) (parameters : option (list SqlParameter))
  : Async (list (list T)) :=
  let* result := executeQuery drv commandType query parameters in
  ret (default [] (recordsets result)).

(** [a?.[0]]. *)
Definition first {A} (a : option (list A)) : option A := a ≫= head.

(** [SqlHelper.executeSingle] (index.ts 145-152). *)
Definition executeSingle {T} `{Truthy T} (drv : Driver T) (commandType : QueryType)
    (query : string) (parameters : option (list SqlParameter))
  : Async (option T) :=
  let* result := executeQuery drv commandType query parameters in
  ret (js_or_null (first (recordset result))).

(** [SqlHelper.executeScalar] (index.ts 154-161):
    [result.recordset?.[0]?.value || null]. *)
Definition executeScalar {T} `{Truthy T} (drv : Driver (gmap string T))
    (commandType : QueryType) (query : string)
    (parameters : option (list SqlParameter))
  : Async (option T) :=
  let* result := executeQuery drv commandType query parameters in
  ret (js_or_null (first (recordset result) ≫= (.!! "value"))).

(** [SqlHelper.executeInsert] (index.ts 164-181).  The rows have type
    [T & { [key: string]: number }]; an omitted [identityColumnName] is
    ['Id'].  The declared result is a number; what [row[identityColumnName]]
    yields at run time can also be an inherited member. *)
Definition executeInsert (drv : Driver (gmap string float))
    (commandType : QueryType) (query : string)
    (parameters : option (list SqlParameter))
    (identityColumnName : option string)
  : Async JsValue :=
  let identityColumnName := default "Id" identityColumnName in
  let modifiedQuery :=
    if decide (commandType = Text)
    then query +:+ "; SELECT SCOPE_IDENTITY() AS " +:+ identityColumnName
    else query in
  let* result := executeQuery drv commandType modifiedQuery parameters in
  ret (js_or
         (first (recordset result)
            ≫= (λ row, js_get VNum row identityColumnName))
         (VNum 0%float)).

(** [SqlHelper.executeUpdate] (index.ts 184-191). *)
Definition executeUpdate {T} (drv : Driver T) (commandType : QueryType)
    (query : string) (parameters : option (list SqlParameter))
  : Async float :=
  let* result := executeQuery drv commandType query parameters in
  ret (js_or (head (rowsAffected result)) 0%float).

(** [SqlHelper.executeDelete] (index.ts 194-201). *)
Definition executeDelete {T} (drv : Driver T) (commandType : QueryType)
    (query : string) (parameters : option (list SqlParameter))
  : Async float :=
  let* result := executeQuery drv commandType query parameters in
  ret (js_or (head (rowsAffected result)) 0%float).

(** [SqlHelper.exists] (index.ts 204-217).  The template literal keeps its
    line breaks and indentation. *)
Definition exists_ (drv : Driver (gmap string float)) (tableName : string)
    (whereClause : string) (parameters : option (list SqlParameter))
  : Async bool :=
  let* result :=
    executeScalar drv Text
      ("SELECT COUNT(1) as value
             FROM " +:+ tableName +:+ "
             WHERE " +:+ whereClause)
      parameters in
  ret (0 <? js_or result 0)%float.

(** [SqlHelper.count] (index.ts 219-233). *)
Definition count (drv : Driver (gmap string float)) (tableName : string)
    (whereClause : option string) (parameters : option (list SqlParameter))
  : Async float :=
  let query :=
    if truthy whereClause
    then "SELECT COUNT(1) as value
               FROM " +:+ tableName +:+ "
               WHERE " +:+ default "" whereClause
    else "SELECT COUNT(1) as value
               FROM " +:+ tableName in
  let* result := executeScalar drv Text query parameters in
  ret (js_or result 0%float).

(** [s.startsWith(p)] and [s.substring(n)]. *)
Definition startsWith (s p : string) : bool := String.prefix p s.

Definition substring (n : nat) (s : string) : string :=
  String.substring n (String.length s - n) s.

(** The parameter name [executeWithReturnValue] binds (index.ts 250-252). *)
Definition paramName (param : SqlParameter) : string :=
  if startsWith (name param) "@"
  then substring 1 (name param)
  else name param.

(** The body of the [forEach] of [executeWithReturnValue]
    (index.ts 248-259). *)
Definition bind_return_parameter {R} (drv : Driver R) (request : Request)
    (param : SqlParameter) : Err + Request :=
  match type param with
  | Some t =>
      request_input drv request (Input3 (paramName param) t (value param))
  | None => request_input drv request (Input2 (paramName param) (value param))
  end.

(** [SqlHelper.executeWithReturnValue] (index.ts 238-271).  An omitted
    [parameters] is [[]]; [returnValue] is [any]. *)
Definition executeWithReturnValue {R} (drv : Driver R) (query : string)
    (parameters : option (list SqlParameter))
  : Async JsValue :=
  let parameters := default [] parameters in
  try_catch
    (let* pool := await_getPool drv in
     let request := pool_request pool in
     let* request :=
       settle_with (forEach (bind_return_parameter drv) request parameters) in
     let* result := request_execute drv request query in
     ret (js_or (Some (returnValue result)) (VNum 0%float)))
    (λ error,
       exec (console_error "Query execution error:" error);;
       throw error).

(** * Vocabulary of the properties *)

(** ** Reachable states and the pool invariant *)

(** The states the program can be in: any interleaving of the actions, from
    the freshly loaded module. *)
Definition reachable {R} (drv : Driver R) (h : State) : Prop :=
  ∃ acts, h = run drv acts initial.

(** A pending promise is the cached one, and its pool was constructed
    earlier in the trace; the cached promise is on the heap and was not
    rejected. *)
Definition pool_invariant (h : State) : Prop :=
  (∀ d p, promises h !! d = Some (Pending p) →
          poolPromise h = Some d ∧ pool_id p < length (trace h))
  ∧ (∀ d, poolPromise h = Some d →
          ∃ s, promises h !! d = Some s ∧ ∀ e, s ≠ Rejected e).

(** ** Requests *)

(** A parameter as [executeQuery] binds it: the name verbatim. *)
Definition verbatim_input (param : SqlParameter) : Input :=
  match type param with
  | Some t => Input3 (name param) t (value param)
  | None => Input2 (name param) (value param)
  end.

(** The request [executeQuery] dispatches on [pool]: one input per
    parameter, in order; none when [parameters] is omitted. *)
Definition bound (pool : ConnectionPool)
    (parameters : option (list SqlParameter)) : Request :=
  {| req_pool := pool;
     req_inputs := verbatim_input <$> default [] parameters |}.

(** The driver accepts every one of [inputs], in order, on a new request
    of [pool]: each [request.input] call returns. *)
Definition accepted {R} (drv : Driver R) (pool : ConnectionPool)
    (inputs : list Input) : Prop :=
  ∀ n i, inputs !! n = Some i →
         input drv {| req_pool := pool; req_inputs := take n inputs |} i = None.

(** The driver accepts the first [n] of [inputs] and throws [e] on the
    next one. *)
Definition rejected_at {R} (drv : Driver R) (pool : ConnectionPool)
    (inputs : list Input) (n : nat) (e : Err) : Prop :=
  accepted drv pool (take n inputs)
  ∧ ∃ i, inputs !! n = Some i
         ∧ input drv {| req_pool := pool; req_inputs := take n inputs |} i
           = Some e.

(** Stripping the marker, in the words of the specification: one leading
    [@] is removed; a name without it is kept as it is. *)
Definition strip_marker (s : string) : string :=
  match s with
  | String "@"%char rest => rest
  | _ => s
  end.

(** A parameter as the specification has [executeWithReturnValue] bind it. *)
Definition stripped_input (param : SqlParameter) : Input :=
  match type param with
  | Some t => Input3 (strip_marker (name param)) t (value param)
  | None => Input2 (strip_marker (name param)) (value param)
  end.

(** ** Projections *)

(** The identity the caller is given for the answer [result]: the field
    [col] of the first row of the first record set, and [0] when there is
    no such field (or the field is zero or [NaN]). *)
Definition identity_field (col : string) (result : IResult (gmap string float))
  : float :=
  match recordset result with
  | Some (row :: _) =>
      match row !! col with
      | Some v => if ((v =? 0) || is_nan v)%float then 0%float else v
      | None => 0%float
      end
  | _ => 0%float
  end.

(** The field [value] of the first row of the first record set, if any:
    what [SELECT COUNT(1) as value ...] answers. *)
Definition count_value (result : IResult (gmap string float)) : option float :=
  first (recordset result) ≫= (.!! "value").

(** The line feed of the template literals. *)
Definition LF : string := String (ascii_of_nat 10) "".

(** ** Sentences of the specification that the code does not satisfy *)

(** C1 as the specification states it: with nothing cached, a call to
    [getPool] caches the creation attempt it starts. *)
Definition getPool_caches_every_attempt : Prop :=
  ∀ (drv : Driver unit) (h : State),
    reachable drv h → poolPromise h = None →
    ∃ d, poolPromise (fst (getPool drv h)) = Some d.


(** C3 as the specification states it: with no configuration, acquiring the
    pool or a connection fails with a [ConfigurationError], and the absent
    configuration is not handed on to the driver. *)
Definition unconfigured_acquisition_refused : Prop :=
  ∀ (drv : Driver unit) (h : State),
    config h = None → poolPromise h = None →
    (∃ e, snd (await_getPool drv h) = Thrown e
          ∧ err_name e = "ConfigurationError")
    ∧ trace (fst (await_getPool drv h)) = trace h
    ∧ (∃ e, snd (getConnection drv h) = Thrown e
            ∧ err_name e = "ConfigurationError")
    ∧ trace (fst (getConnection drv h)) = trace h.

(** C4 as the specification states it, for rows of numbers: whenever the
    first row has a field [value], [executeScalar] returns that value. *)
Definition executeScalar_returns_present_value : Prop :=
  ∀ (drv : Driver (gmap string float)) commandType q parameters h h' result
    row v,
    executeQuery drv commandType q parameters h = (h', Returned result) →
    first (recordset result) = Some row →
    row !! "value" = Some v →
    executeScalar drv commandType q parameters h = (h', Returned (Some v)).

(** C6 as the specification states it, on the execution: for every
    parameter list, once the pool is acquired, the query is executed as a
    stored procedure with every parameter bound under its stripped name. *)
Definition executeWithReturnValue_always_executes : Prop :=
  ∀ (drv : Driver unit) q parameters h h1 pool,
    await_getPool drv h = (h1, Returned pool) →
    trace (fst (executeWithReturnValue drv q parameters h))
    = trace h1 ++
        [RequestExecute
           {| req_pool := pool;
              req_inputs := stripped_input <$> default [] parameters |} q].

(** ** Drivers, answers and states to run the definitions on *)

(** A driver that accepts every configuration, connects every pool and
    answers every command with [res]. *)
Definition answering {R} (res : IResult R) : Driver R :=
  {| construct := λ _, None;
     connect := λ p, inr p;
     input := λ _ _, None;
     execute := λ _ _, inr res;
     query := λ _ _, inr res |}.

Definition TypeError : Err :=
  {| err_name := "TypeError";
     err_message := "Cannot read properties of null" |}.

Definition ELOGIN : Err :=
  {| err_name := "ConnectionError"; err_message := "Login failed" |}.

(** A driver whose constructor throws on a missing configuration, as
    reading a property of [null] does. *)
Definition strict {R} (res : IResult R) : Driver R :=
  {| construct := λ cfg, if cfg is None then Some TypeError else None;
     connect := λ p, inr p;
     input := λ _ _, None;
     execute := λ _ _, inr res;
     query := λ _ _, inr res |}.

(** A driver whose first pool fails to connect and whose later pools
    connect. *)
Definition flaky {R} (res : IResult R) : Driver R :=
  {| construct := λ _, None;
     connect := λ p, if pool_id p is 0 then inl ELOGIN else inr p;
     input := λ _ _, None;
     execute := λ _ _, inr res;
     query := λ _ _, inr res |}.

Definition EDUPEPARAM : Err :=
  {| err_name := "RequestError";
     err_message := "The parameter name has already been declared" |}.

(** The name an input is bound under. *)
Definition input_name (i : Input) : string :=
  match i with
  | Input3 n _ _ | Input2 n _ => n
  end.

(** A driver that refuses to bind a name twice on one request. *)
Definition picky {R} (res : IResult R) : Driver R :=
  {| construct := λ _, None;
     connect := λ p, inr p;
     input := λ request i,
       if decide (input_name i ∈ input_name <$> req_inputs request)
       then Some EDUPEPARAM else None;
     execute := λ _ _, inr res;
     query := λ _ _, inr res |}.

(** The result of a statement that produced no record set. *)
Definition no_result {R} : IResult R :=
  {| recordsets := Some []; recordset := None; rowsAffected := [];
     returnValue := VUndefined |}.

(** The result of a statement whose only record set is [rows]. *)
Definition rows_result {R} (rows : list R) : IResult R :=
  {| recordsets := Some [rows]; recordset := Some rows;
     rowsAffected := []; returnValue := VUndefined |}.

(** The answer to [SELECT COUNT(1) as value ...] over an empty table, and
    over a table of seven rows. *)
Definition zero_count : IResult (gmap string float) :=
  rows_result [ {[ "value" := 0%float ]} ].

Definition seven_count : IResult (gmap string float) :=
  rows_result [ {[ "value" := 7%float ]} ].


(** The result of a procedure that ends without a [RETURN] statement. *)
Definition returned_nothing : IResult unit :=
  {| recordsets := Some []; recordset := None; rowsAffected := [1%float];
     returnValue := VUndefined |}.

Definition quiet : Driver unit := answering no_result.

Definition moody : Driver unit := flaky no_result.

Definition cfg0 : SqlConfig :=
  {| user := "sa"; password := "secret"; server := "localhost";
     database := "Shop"; options := None; pool := None |}.

(** One caller asks for the pool of a configured module, and the connect
    settles. *)
Definition warm : list Action := [CallInitialize cfg0; CallGetPool; Settle 0].

(** A module whose pool is connected. *)
Definition connected {R} (drv : Driver R) : State := run drv warm initial.

(** A module whose first connect, which is going to fail, is in flight. *)
Definition connecting : State :=
  run moody [CallInitialize cfg0; CallGetPool] initial.

(** The pool object of the first [getPool] call of a module configured
    with [cfg0]. *)
Definition pool0 : ConnectionPool :=
  {| pool_id := 0; pool_config := config (initialize cfg0 initial) |}.

(** ** Vocabulary of the further properties *)

(** The driver call [executeQuery] makes for a command kind:
    [request.execute] for a stored procedure, [request.query] otherwise. *)
Definition dispatch_event (commandType : QueryType) (request : Request)
    (q : string) : DriverEvent :=
  match commandType with
  | StoredProcedure => RequestExecute request q
  | Text => RequestQuery request q
  end.

(** The driver's answer to that call. *)
Definition driver_answer {R} (drv : Driver R) (commandType : QueryType)
    (request : Request) (q : string) : Err + IResult R :=
  match commandType with
  | StoredProcedure => execute drv request q
  | Text => query drv request q
  end.

(** A parameter under the name [executeWithReturnValue] binds it with. *)
Definition renamed (param : SqlParameter) : SqlParameter :=
  {| name := paramName param; value := value param; type := type param |}.

(** Every promise [getPool] created is rejected or is the cached one. *)
Definition live_is_cached (h : State) : Prop :=
  ∀ d s, promises h !! d = Some s →
         (∃ e, s = Rejected e) ∨ poolPromise h = Some d.

Definition EREQUEST : Err :=
  {| err_name := "RequestError"; err_message := "Invalid object name" |}.

(** A driver that connects every pool and fails every statement. *)
Definition refusing : Driver (gmap string float) :=
  {| construct := λ _, None;
     connect := λ p, inr p;
     input := λ _ _, None;
     execute := λ _ _, inl EREQUEST;
     query := λ _ _, inl EREQUEST |}.

(** A driver of rows of numbers whose first pool fails to connect. *)
Definition moody_counting : Driver (gmap string float) := flaky seven_count.

(** A configured module that has not asked for the pool yet. *)
Definition configured : State := initialize cfg0 initial.

(** The pool object of the second construction, after a failed first one. *)
Definition pool2 : ConnectionPool :=
  {| pool_id := 2; pool_config := config configured |}.

(** * Properties *)

(** ** Initialisation *)

Lemma js_or_string_default (a : option string) : js_or a "" = default "" a.
Proof. destruct a as [[|c s]|]; reflexivity. Qed.

Lemma js_spread_lookup {T} (base : gmap string T) (overlay : option (gmap string T))
    (k : string) :
  js_spread base overlay !! k =
    match overlay ≫= (.!! k) with
    | Some v => Some v
    | None => base !! k
    end.
Proof.
  unfold js_spread. rewrite lookup_union.
  destruct overlay as [m|]; simpl.
  - destruct (m !! k), (base !! k); reflexivity.
  - rewrite lookup_empty. destruct (base !! k); reflexivity.
Qed.

Lemma default_options_lookup (k : string) :
  default_options !! k =
    if decide (k ∈ ["trustServerCertificate"; "trustedConnection";
                    "enableArithAbort"])
    then Some (VBool true) else None.
Proof.
  unfold default_options.
  rewrite !lookup_insert, lookup_singleton.
  destruct (decide ("trustServerCertificate" = k)) as [<-|];
    [reflexivity|].
  destruct (decide ("trustedConnection" = k)) as [<-|]; [reflexivity|].
  destruct (decide ("enableArithAbort" = k)) as [<-|]; [reflexivity|].
  rewrite decide_False; [reflexivity|].
  rewrite !elem_of_cons, elem_of_nil. intuition congruence.
Qed.

Lemma default_pool_lookup (k : string) :
  default_pool !! k =
    if decide (k = "max") then Some (VNum 60%float)
    else if decide (k = "min") then Some (VNum 5%float)
    else if decide (k = "idleTimeoutMillis") then Some (VNum 60000%float)
    else None.
Proof.
  unfold default_pool.
  rewrite !lookup_insert, lookup_singleton.
  destruct (decide ("max" = k)) as [<-|]; [reflexivity|].
  destruct (decide ("min" = k)) as [<-|]; [reflexivity|].
  destruct (decide ("idleTimeoutMillis" = k)) as [<-|]; [reflexivity|].
  rewrite !decide_False by congruence. reflexivity.
Qed.

(** C9.  [initialize] stores the caller's credentials with an options bag
    and a pool bag in which every key the caller supplied keeps the caller's
    value and every other key has its default (the three options default to
    [true]; [max] 60, [min] 5, [idleTimeoutMillis] 60000), and touches
    nothing else; [initializeFromEnv] is [initialize] on the four
    environment variables, each replaced by the empty string when absent,
    with no options and no pool settings. *)
Theorem initialize_defaults (cfg : SqlConfig) (env : gmap string string)
    (h : State) :
  (∃ opts sizes,
     config (initialize cfg h) =
       Some {| user := user cfg; password := password cfg;
               server := server cfg; database := database cfg;
               options := Some opts; pool := Some sizes |}
     ∧ (∀ k, opts !! k =
           match options cfg ≫= (.!! k) with
           | Some v => Some v
           | None =>
               if decide (k ∈ ["trustServerCertificate"; "trustedConnection";
                               "enableArithAbort"])
               then Some (VBool true) else None
           end)
     ∧ (∀ k, sizes !! k =
           match pool cfg ≫= (.!! k) with
           | Some v => Some v
           | None =>
               if decide (k = "max") then Some (VNum 60%float)
               else if decide (k = "min") then Some (VNum 5%float)
               else if decide (k = "idleTimeoutMillis")
                    then Some (VNum 60000%float)
               else None
           end))
  ∧ poolPromise (initialize cfg h) = poolPromise h
  ∧ promises (initialize cfg h) = promises h
  ∧ trace (initialize cfg h) = trace h
  ∧ initializeFromEnv env h =
      initialize {| user := default "" (env !! "db_user");
                    password := default "" (env !! "db_password");
                    server := default "" (env !! "server");
                    database := default "" (env !! "database");
                    options := None; pool := None |} h.
Proof.
  split; [|repeat (split; [reflexivity|])].
  - eexists _, _. split; [reflexivity|]. split; intros k.
    + rewrite js_spread_lookup, default_options_lookup. reflexivity.
    + rewrite js_spread_lookup, default_pool_lookup. reflexivity.
  - unfold initializeFromEnv. rewrite !js_or_string_default. reflexivity.
Qed.

(** ** PoolManager: one step at a time *)

Section PoolSteps.
Context {R : Type} (drv : Driver R).

Lemma getPool_cached (h : State) (d : PromiseId) :
  poolPromise h = Some d → getPool drv h = (h, Returned d).
Proof. intros Hd. unfold getPool. rewrite Hd. reflexivity. Qed.

Lemma getPool_throws (h : State) (e : Err) :
  poolPromise h = None → construct drv (config h) = Some e →
  getPool drv h = (emit (NewConnectionPool (config h)) h, Thrown e).
Proof. intros Hd He. unfold getPool. rewrite Hd, He. reflexivity. Qed.

Lemma getPool_fresh (h : State) :
  poolPromise h = None → construct drv (config h) = None →
  getPool drv h =
    ({| poolPromise := Some (length (promises h));
        config := config h;
        promises :=
          promises h ++
            [Pending {| pool_id := length (trace h); pool_config := config h |}];
        trace :=
          trace h ++
            [NewConnectionPool (config h);
             Connect {| pool_id := length (trace h); pool_config := config h |}];
        console := console h |},
     Returned (length (promises h))).
Proof.
  intros Hd He. unfold getPool. rewrite Hd, He.
  unfold set_poolPromise, set_promises, emit. simpl.
  rewrite <- app_assoc. reflexivity.
Qed.

Lemma settle_pending_rejected (h : State) d p e :
  promises h !! d = Some (Pending p) → connect drv p = inl e →
  settle drv d h =
    {| poolPromise := None;
       config := config h;
       promises := <[d := Rejected e]> (promises h);
       trace := trace h;
       console := console h ++ [("Database connection failed", e)] |}.
Proof. intros Hp He. unfold settle. rewrite Hp, He. reflexivity. Qed.

Lemma settle_pending_fulfilled (h : State) d p ready :
  promises h !! d = Some (Pending p) → connect drv p = inr ready →
  settle drv d h = set_promises (<[d := Fulfilled ready]> (promises h)) h.
Proof. intros Hp He. unfold settle. rewrite Hp, He. reflexivity. Qed.

Lemma settle_not_pending (h : State) d :
  (∀ p, promises h !! d ≠ Some (Pending p)) → settle drv d h = h.
Proof.
  intros Hp. unfold settle.
  destruct (promises h !! d) as [[p| |]|] eqn:E; try reflexivity.
  destruct (Hp p eq_refl).
Qed.

Lemma await_fulfilled (h : State) d ready :
  promises h !! d = Some (Fulfilled ready) →
  await drv d h = (h, Returned ready).
Proof.
  intros Hd. unfold await.
  rewrite settle_not_pending by (intros ?; congruence).
  rewrite Hd. reflexivity.
Qed.

Lemma await_pending (h : State) d p :
  promises h !! d = Some (Pending p) →
  await drv d h =
    (settle drv d h,
     match connect drv p with
     | inl e => Thrown e
     | inr ready => Returned ready
     end).
Proof.
  intros Hd. assert (Hlt : d < length (promises h))
    by (eapply lookup_lt_Some; exact Hd).
  unfold await. destruct (connect drv p) as [e|ready] eqn:He.
  - rewrite (settle_pending_rejected h d p e Hd He). simpl.
    rewrite list_lookup_insert_eq by exact Hlt. reflexivity.
  - rewrite (settle_pending_fulfilled h d p ready Hd He). simpl.
    rewrite list_lookup_insert_eq by exact Hlt. reflexivity.
Qed.

Lemma run_app (acts more : list Action) (h : State) :
  run drv (acts ++ more) h = run drv more (run drv acts h).
Proof. apply foldl_app. Qed.

Lemma run_cons (a : Action) (acts : list Action) (h : State) :
  run drv (a :: acts) h = run drv acts (step drv a h).
Proof. reflexivity. Qed.

Lemma reachable_run (acts : list Action) (h : State) :
  reachable drv h → reachable drv (run drv acts h).
Proof. intros [before ->]. exists (before ++ acts). symmetry. apply run_app. Qed.

End PoolSteps.

(** ** PoolManager: the invariant *)

Section PoolInvariant.
Context {R : Type} (drv : Driver R).

Lemma pool_invariant_initial : pool_invariant initial.
Proof.
  split.
  - intros d p. simpl. rewrite lookup_nil. discriminate.
  - intros d. simpl. discriminate.
Qed.

(** The invariant only looks at the cache, the heap and the length of the
    trace. *)
Lemma pool_invariant_grow (h h' : State) :
  pool_invariant h →
  poolPromise h' = poolPromise h → promises h' = promises h →
  length (trace h) ≤ length (trace h') →
  pool_invariant h'.
Proof.
  intros [Inv1 Inv2] Hc Hp Ht. split.
  - intros d p. rewrite Hp, Hc. intros Hd.
    destruct (Inv1 d p Hd) as [? ?]. split; [assumption|lia].
  - intros d. rewrite Hp, Hc. apply Inv2.
Qed.

Lemma no_pending_when_empty (h : State) :
  pool_invariant h → poolPromise h = None →
  ∀ d p, promises h !! d ≠ Some (Pending p).
Proof. intros [Inv1 _] Hc d p Hd. destruct (Inv1 d p Hd). congruence. Qed.

Lemma pool_invariant_getPool (h : State) :
  pool_invariant h → pool_invariant (fst (getPool drv h)).
Proof.
  intros Inv. destruct (poolPromise h) as [c|] eqn:Hc.
  - rewrite (getPool_cached drv h c Hc). exact Inv.
  - pose proof (no_pending_when_empty h Inv Hc) as Hnone.
    destruct (construct drv (config h)) as [e|] eqn:He.
    + rewrite (getPool_throws drv h e Hc He).
      apply (pool_invariant_grow h); try reflexivity; [exact Inv|].
      simpl. rewrite length_app. lia.
    + rewrite (getPool_fresh drv h Hc He). split; simpl.
      * intros d p Hp.
        destruct (decide (d < length (promises h))) as [Hlt|Hge].
        -- rewrite lookup_app_l in Hp by exact Hlt. destruct (Hnone d p Hp).
        -- rewrite lookup_app_r in Hp by lia.
           destruct (d - length (promises h)) as [|n] eqn:Hn;
             simpl in Hp; [|rewrite lookup_nil in Hp; discriminate].
           injection Hp as <-. simpl. rewrite length_app. simpl.
           split; [f_equal|]; lia.
      * intros d [= <-].
        exists (Pending {| pool_id := length (trace h);
                           pool_config := config h |}).
        split; [|discriminate].
        rewrite lookup_app_r, Nat.sub_diag by lia. reflexivity.
Qed.

Lemma pool_invariant_settle (d : PromiseId) (h : State) :
  pool_invariant h → pool_invariant (settle drv d h).
Proof.
  intros Inv.
  destruct (promises h !! d) as [[p| |]|] eqn:Hd;
    try (rewrite settle_not_pending by (intros ?; congruence); exact Inv).
  destruct Inv as [Inv1 Inv2].
  destruct (Inv1 d p Hd) as [Hc _].
  assert (Hlt : d < length (promises h))
    by (eapply lookup_lt_Some; exact Hd).
  assert (Hgone : ∀ X d' p', (∀ q, X ≠ Pending q) →
            <[d := X]> (promises h) !! d' ≠ Some (Pending p')).
  { intros X d' p' HX Hp'. destruct (decide (d = d')) as [<-|Hne].
    - rewrite list_lookup_insert_eq in Hp' by exact Hlt.
      injection Hp' as Hp'. destruct (HX _ Hp').
    - rewrite list_lookup_insert_ne in Hp' by exact Hne.
      destruct (Inv1 d' p' Hp') as [Hc' _]. congruence. }
  destruct (connect drv p) as [e|ready] eqn:He.
  - rewrite (settle_pending_rejected drv h d p e Hd He). split; simpl.
    + intros d' p' Hp'. destruct (Hgone (Rejected e) d' p'); [discriminate|exact Hp'].
    + discriminate.
  - rewrite (settle_pending_fulfilled drv h d p ready Hd He). split; simpl.
    + intros d' p' Hp'.
      destruct (Hgone (Fulfilled ready) d' p'); [discriminate|exact Hp'].
    + intros d' Hc'. assert (d' = d) as -> by congruence.
      exists (Fulfilled ready).
      split; [apply list_lookup_insert_eq, Hlt|discriminate].
Qed.

Lemma pool_invariant_step (a : Action) (h : State) :
  pool_invariant h → pool_invariant (step drv a h).
Proof.
  intros Inv. destruct a as [cfg| |d|ev|msg e]; simpl.
  - exact Inv.
  - apply pool_invariant_getPool, Inv.
  - apply pool_invariant_settle, Inv.
  - apply (pool_invariant_grow h); try reflexivity; [exact Inv|].
    simpl. rewrite length_app. lia.
  - exact Inv.
Qed.

Lemma pool_invariant_run (acts : list Action) (h : State) :
  pool_invariant h → pool_invariant (run drv acts h).
Proof.
  revert h. induction acts as [|a acts IH]; intros h Inv; [exact Inv|].
  rewrite run_cons. apply IH, pool_invariant_step, Inv.
Qed.

Lemma reachable_pool_invariant (h : State) :
  reachable drv h → pool_invariant h.
Proof. intros [acts ->]. apply pool_invariant_run, pool_invariant_initial. Qed.

(** Once the cached promise is fulfilled, no action changes the cache or
    the heap. *)
Lemma ready_step (a : Action) (h : State) d ready :
  pool_invariant h →
  poolPromise h = Some d → promises h !! d = Some (Fulfilled ready) →
  poolPromise (step drv a h) = Some d
  ∧ promises (step drv a h) = promises h.
Proof.
  intros [Inv1 _] Hc Hd. destruct a as [cfg| |d'|ev|msg e]; simpl; auto.
  - rewrite (getPool_cached drv h d Hc). auto.
  - rewrite settle_not_pending; [auto|].
    intros p Hp. destruct (Inv1 _ _ Hp) as [Hc' _]. congruence.
Qed.

Lemma ready_run (acts : list Action) (h : State) d ready :
  pool_invariant h →
  poolPromise h = Some d → promises h !! d = Some (Fulfilled ready) →
  poolPromise (run drv acts h) = Some d
  ∧ promises (run drv acts h) = promises h.
Proof.
  revert h. induction acts as [|a acts IH]; intros h Inv Hc Hd; [auto|].
  destruct (ready_step a h d ready Inv Hc Hd) as (Hc' & Hp').
  rewrite run_cons.
  destruct (IH (step drv a h)) as (Hc'' & Hp'').
  - apply pool_invariant_step, Inv.
  - exact Hc'.
  - rewrite Hp'. exact Hd.
  - rewrite Hc'', Hp''. auto.
Qed.

(** Callers that find a promise cached add nothing. *)
Lemma getPool_again (k : nat) (h : State) (d : PromiseId) :
  poolPromise h = Some d → run drv (replicate k CallGetPool) h = h.
Proof.
  intros Hc. induction k as [|k IH]; [reflexivity|].
  simpl replicate. rewrite run_cons. simpl step.
  rewrite (getPool_cached drv h d Hc). exact IH.
Qed.

End PoolInvariant.

(** ** PoolManager: the lazy singleton *)

(** C1, refuted.  In the freshly loaded module, with a driver whose
    constructor throws on the missing configuration, [getPool] throws and
    caches nothing, and three callers make three constructions. *)
Lemma getPool_constructor_throw_not_cached :
  getPool (strict (@no_result unit)) initial
  = (emit (NewConnectionPool None) initial, Thrown TypeError)
  ∧ poolPromise (fst (getPool (strict (@no_result unit)) initial)) = None
  ∧ trace (run (strict (@no_result unit))
             [CallGetPool; CallGetPool; CallGetPool] initial)
    = [NewConnectionPool None; NewConnectionPool None; NewConnectionPool None]
  ∧ ¬ getPool_caches_every_attempt.
Proof.
  do 3 (split; [reflexivity|]).
  intros Hclaim.
  destruct (Hclaim (strict no_result) initial
              (ex_intro _ [] eq_refl) eq_refl) as [d Hd].
  discriminate Hd.
Qed.

(** C1, amended.  [getPool] is a lazy singleton.  In every reachable state:
    with nothing cached, a call constructs exactly one pool and, when the
    driver's constructor returns, starts its connect and caches the pending
    promise, further callers add nothing, and when the connect succeeds the
    cached promise is fulfilled with the pool; when the driver's
    constructor throws instead, [getPool] throws that error, that one
    construction is all that happened and nothing is cached;
    with a promise cached, a call returns that promise and changes nothing;
    and once the cached promise is fulfilled with [ready], then after any
    further interleaving of callers and settlements [getPool] still returns
    that promise, changing nothing, and awaiting it gives [ready]. *)
Theorem getPool_lazy_singleton {R} (drv : Driver R) (h : State) :
  reachable drv h →
  (poolPromise h = None →
     match construct drv (config h) with
     | None =>
         ∃ h',
           getPool drv h = (h', Returned (length (promises h)))
           ∧ poolPromise h' = Some (length (promises h))
           ∧ promises h' =
               promises h ++
                 [Pending {| pool_id := length (trace h);
                             pool_config := config h |}]
           ∧ trace h' =
               trace h ++
                 [NewConnectionPool (config h);
                  Connect {| pool_id := length (trace h);
                             pool_config := config h |}]
           ∧ (∀ k, run drv (replicate k CallGetPool) h' = h')
           ∧ (∀ ready,
                connect drv {| pool_id := length (trace h);
                               pool_config := config h |} = inr ready →
                poolPromise (settle drv (length (promises h)) h')
                = Some (length (promises h))
                ∧ promises (settle drv (length (promises h)) h')
                    !! length (promises h)
                  = Some (Fulfilled ready)
                ∧ trace (settle drv (length (promises h)) h') = trace h')
     | Some e =>
         ∃ h',
           getPool drv h = (h', Thrown e)
           ∧ poolPromise h' = None
           ∧ promises h' = promises h
           ∧ trace h' = trace h ++ [NewConnectionPool (config h)]
     end)
  ∧ (∀ d, poolPromise h = Some d → getPool drv h = (h, Returned d))
  ∧ (∀ d ready,
       poolPromise h = Some d → promises h !! d = Some (Fulfilled ready) →
       ∀ later,
         getPool drv (run drv later h) = (run drv later h, Returned d)
         ∧ await drv d (run drv later h) = (run drv later h, Returned ready)).
Proof.
  intros Hreach. split; [|split].
  - intros Hc. destruct (construct drv (config h)) as [e|] eqn:He.
    + eexists. rewrite (getPool_throws drv h e Hc He).
      split; [reflexivity|]. simpl. auto.
    + eexists. rewrite (getPool_fresh drv h Hc He).
      split; [reflexivity|]. simpl.
      do 3 (split; [reflexivity|]). split.
      * intros k. apply (getPool_again drv k _ (length (promises h))).
        reflexivity.
      * intros ready Hready.
        erewrite settle_pending_fulfilled; [| |exact Hready];
          [|simpl; rewrite lookup_app_r, Nat.sub_diag by lia; reflexivity].
        simpl. split; [reflexivity|]. split; [|reflexivity].
        apply list_lookup_insert_eq. rewrite length_app. simpl. lia.
  - apply getPool_cached.
  - intros d ready Hc Hd later.
    destruct (ready_run drv later h d ready) as (Hc' & Hp');
      [by apply (reachable_pool_invariant drv)|done|done|].
    split; [by apply getPool_cached|].
    apply await_fulfilled. rewrite Hp'. exact Hd.
Qed.

Lemma getPool_lazy_singleton_witness :
  (reachable quiet configured
   ∧ poolPromise configured = None
   ∧ ∃ h',
       getPool quiet configured = (h', Returned 0)
       ∧ poolPromise h' = Some 0
       ∧ trace h' = [NewConnectionPool (config configured); Connect pool0])
  ∧ (reachable (strict (@no_result unit)) initial
     ∧ poolPromise initial = None
     ∧ ∃ h',
         getPool (strict (@no_result unit)) initial = (h', Thrown TypeError)
         ∧ poolPromise h' = None
         ∧ trace h' = [NewConnectionPool None])
  ∧ reachable quiet (connected quiet)
  ∧ poolPromise (connected quiet) = Some 0
  ∧ promises (connected quiet) !! 0 = Some (Fulfilled pool0)
  ∧ (∀ later,
       getPool quiet (run quiet later (connected quiet))
       = (run quiet later (connected quiet), Returned 0)
       ∧ await quiet 0 (run quiet later (connected quiet))
         = (run quiet later (connected quiet), Returned pool0)).
Proof.
  assert (Hfresh : reachable quiet configured)
    by (exists [CallInitialize cfg0]; reflexivity).
  assert (Hbare : reachable (strict (@no_result unit)) initial)
    by (exists []; reflexivity).
  assert (Hr : reachable quiet (connected quiet))
    by (exists warm; reflexivity).
  split; [|split].
  - split; [exact Hfresh|]. split; [reflexivity|].
    destruct (proj1 (getPool_lazy_singleton quiet configured Hfresh) eq_refl)
      as (h' & Hg & Hc & _ & Ht & _).
    exists h'. split; [exact Hg|]. split; [exact Hc|exact Ht].
  - split; [exact Hbare|]. split; [reflexivity|].
    destruct (proj1 (getPool_lazy_singleton (strict (@no_result unit))
                       initial Hbare) eq_refl)
      as (h' & Hg & Hc & _ & Ht).
    exists h'. split; [exact Hg|]. split; [exact Hc|exact Ht].
  - split; [exact Hr|]. split; [reflexivity|]. split; [reflexivity|].
    exact (proj2 (proj2 (getPool_lazy_singleton quiet (connected quiet) Hr))
             0 pool0 eq_refl eq_refl).
Defined.

(** C2.  When the connect behind the pending promise [d] fails with [e]:
    [d] is the cached promise; the caller awaiting it receives [e]; the
    static field is cleared and [d] stays rejected; and the next [getPool]
    call constructs a new pool object and caches a new pending promise,
    whose outcome is that of the new connect, not [e] again (when the
    constructor throws, that new construction is what the call reports). *)
Theorem getPool_failure_resets {R} (drv : Driver R) (h : State)
    (d : PromiseId) (p : ConnectionPool) (e : Err) :
  reachable drv h →
  promises h !! d = Some (Pending p) →
  connect drv p = inl e →
  poolPromise h = Some d
  ∧ await drv d h = (settle drv d h, Thrown e)
  ∧ poolPromise (settle drv d h) = None
  ∧ promises (settle drv d h) !! d = Some (Rejected e)
  ∧ trace (settle drv d h) = trace h
  ∧ console (settle drv d h) = console h ++ [("Database connection failed", e)]
  ∧ match construct drv (config h) with
    | None =>
        ∃ h' d' p',
          getPool drv (settle drv d h) = (h', Returned d')
          ∧ d' ≠ d ∧ pool_id p' ≠ pool_id p
          ∧ poolPromise h' = Some d'
          ∧ promises h' !! d' = Some (Pending p')
          ∧ promises h' !! d = Some (Rejected e)
          ∧ trace h' = trace h ++ [NewConnectionPool (config h); Connect p']
          ∧ snd (await drv d' h') =
              match connect drv p' with
              | inl e' => Thrown e'
              | inr ready => Returned ready
              end
    | Some e' =>
        getPool drv (settle drv d h) =
          (emit (NewConnectionPool (config h)) (settle drv d h), Thrown e')
    end.
Proof.
  intros Hreach Hd He.
  destruct (reachable_pool_invariant drv h Hreach) as [Inv1 _].
  destruct (Inv1 d p Hd) as [Hc Hid].
  assert (Hlt : d < length (promises h))
    by (eapply lookup_lt_Some; exact Hd).
  split; [exact Hc|].
  split; [rewrite (await_pending drv h d p Hd), He; reflexivity|].
  rewrite (settle_pending_rejected drv h d p e Hd He). simpl.
  split; [reflexivity|].
  split; [apply list_lookup_insert_eq, Hlt|].
  split; [reflexivity|]. split; [reflexivity|].
  destruct (construct drv (config h)) as [e'|] eqn:Hk.
  - rewrite getPool_throws with (e := e'); [reflexivity|reflexivity|exact Hk].
  - rewrite getPool_fresh; [|reflexivity|exact Hk]. simpl.
    rewrite length_insert.
    eexists _, (length (promises h)),
      {| pool_id := length (trace h); pool_config := config h |}.
    split; [reflexivity|]. simpl.
    split; [lia|]. split; [lia|]. split; [reflexivity|].
    assert (Hnew : (<[d:=Rejected e]> (promises h) ++
                     [Pending {| pool_id := length (trace h);
                                 pool_config := config h |}])
                   !! length (promises h)
                   = Some (Pending {| pool_id := length (trace h);
                                      pool_config := config h |})).
    { rewrite lookup_app_r by (rewrite length_insert; lia).
      rewrite length_insert, Nat.sub_diag. reflexivity. }
    split; [exact Hnew|].
    split.
    { rewrite lookup_app_l by (rewrite length_insert; exact Hlt).
      apply list_lookup_insert_eq, Hlt. }
    split; [reflexivity|].
    erewrite await_pending by exact Hnew. reflexivity.
Qed.

Lemma getPool_failure_resets_witness :
  reachable moody connecting
  ∧ promises connecting !! 0 = Some (Pending pool0)
  ∧ connect moody pool0 = inl ELOGIN
  ∧ await moody 0 connecting = (settle moody 0 connecting, Thrown ELOGIN)
  ∧ poolPromise (settle moody 0 connecting) = None.
Proof.
  assert (Hr : reachable moody connecting)
    by (exists [CallInitialize cfg0; CallGetPool]; reflexivity).
  split; [exact Hr|]. split; [reflexivity|]. split; [reflexivity|].
  pose proof (getPool_failure_resets moody connecting 0 pool0 ELOGIN Hr
                eq_refl eq_refl) as (_ & Hawait & Hcleared & _).
  exact (conj Hawait Hcleared).
Defined.

(** ** PoolManager: acquiring the pool *)

(** [await SqlHelper.getPool()] with nothing cached: one construction, then
    the outcome of the connect. *)
Lemma await_getPool_fresh {R} (drv : Driver R) (h : State) :
  poolPromise h = None →
  await_getPool drv h =
    match construct drv (config h) with
    | Some e => (emit (NewConnectionPool (config h)) h, Thrown e)
    | None =>
        match connect drv {| pool_id := length (trace h);
                             pool_config := config h |} with
        | inl e =>
            ({| poolPromise := None;
                config := config h;
                promises := promises h ++ [Rejected e];
                trace :=
                  trace h ++
                    [NewConnectionPool (config h);
                     Connect {| pool_id := length (trace h);
                                pool_config := config h |}];
                console := console h ++ [("Database connection failed", e)] |},
             Thrown e)
        | inr ready =>
            ({| poolPromise := Some (length (promises h));
                config := config h;
                promises := promises h ++ [Fulfilled ready];
                trace :=
                  trace h ++
                    [NewConnectionPool (config h);
                     Connect {| pool_id := length (trace h);
                                pool_config := config h |}];
                console := console h |},
             Returned ready)
        end
    end.
Proof.
  intros Hc. unfold await_getPool, bind.
  destruct (construct drv (config h)) as [e|] eqn:Hk.
  - rewrite (getPool_throws drv h e Hc Hk). reflexivity.
  - rewrite (getPool_fresh drv h Hc Hk).
    erewrite await_pending
      by (simpl; rewrite lookup_app_r, Nat.sub_diag by lia; reflexivity).
    destruct (connect drv _) as [e|ready] eqn:He.
    + erewrite settle_pending_rejected; [|
        simpl; rewrite lookup_app_r, Nat.sub_diag by lia; reflexivity|exact He].
      simpl. rewrite insert_app_r_alt, Nat.sub_diag by lia. reflexivity.
    + erewrite settle_pending_fulfilled; [|
        simpl; rewrite lookup_app_r, Nat.sub_diag by lia; reflexivity|exact He].
      unfold set_promises. simpl.
      rewrite insert_app_r_alt, Nat.sub_diag by lia. reflexivity.
Qed.

Lemma await_getPool_ready {R} (drv : Driver R) (h : State) d ready :
  poolPromise h = Some d → promises h !! d = Some (Fulfilled ready) →
  await_getPool drv h = (h, Returned ready).
Proof.
  intros Hc Hd. unfold await_getPool, bind.
  rewrite (getPool_cached drv h d Hc). apply await_fulfilled, Hd.
Qed.

(** [await SqlHelper.getPool()] is a [getPool] call followed, when it
    returned a promise, by the settlement of that promise. *)
Lemma await_getPool_run {R} (drv : Driver R) (h : State) :
  ∃ acts, fst (await_getPool drv h) = run drv acts h.
Proof.
  unfold await_getPool, bind.
  destruct (getPool drv h) as [h1 [d|e|]] eqn:Hg.
  - exists [CallGetPool; Settle d]. unfold await.
    rewrite !run_cons. simpl step. rewrite Hg. simpl fst.
    destruct (promises (settle drv d h1) !! d) as [[p|p|e]|]; reflexivity.
  - exists [CallGetPool]. rewrite run_cons. simpl step. rewrite Hg. reflexivity.
  - exists [CallGetPool]. rewrite run_cons. simpl step. rewrite Hg. reflexivity.
Qed.

(** In a reachable state the caller of [await SqlHelper.getPool()] is
    resumed, with a pool or with an error. *)
Lemma await_getPool_settles {R} (drv : Driver R) (h : State) :
  reachable drv h → snd (await_getPool drv h) ≠ Suspended.
Proof.
  intros Hreach.
  destruct (reachable_pool_invariant drv h Hreach) as [_ Inv2].
  destruct (poolPromise h) as [d|] eqn:Hc.
  - destruct (Inv2 d eq_refl) as (s & Hd & Hs).
    unfold await_getPool, bind. rewrite (getPool_cached drv h d Hc).
    destruct s as [p|ready|e].
    + rewrite (await_pending drv h d p Hd). simpl.
      destruct (connect drv p); discriminate.
    + rewrite (await_fulfilled drv h d ready Hd). discriminate.
    + destruct (Hs e eq_refl).
  - rewrite (await_getPool_fresh drv h Hc).
    destruct (construct drv (config h)); [discriminate|].
    destruct (connect drv _); discriminate.
Qed.

Lemma getConnection_unfold {R} (drv : Driver R) (h : State) :
  getConnection drv h =
    match construct drv (config h) with
    | Some e =>
        (console_error "Database connection error:" e
           (emit (NewConnectionPool (config h)) h),
         Thrown e)
    | None =>
        match connect drv {| pool_id := length (trace h);
                             pool_config := config h |} with
        | inl e =>
            (console_error "Database connection error:" e
               (emit (Connect {| pool_id := length (trace h);
                                 pool_config := config h |})
                  (emit (NewConnectionPool (config h)) h)),
             Thrown e)
        | inr fresh =>
            (emit (Connect {| pool_id := length (trace h);
                              pool_config := config h |})
               (emit (NewConnectionPool (config h)) h),
             Returned fresh)
        end
    end.
Proof.
  unfold getConnection, try_catch.
  destruct (construct drv (config h)) as [e|]; [reflexivity|].
  destruct (connect drv _) as [e|fresh]; reflexivity.
Qed.

(** [getConnection] never touches the cache. *)
Lemma getConnection_run {R} (drv : Driver R) (h : State) :
  (∃ acts, fst (getConnection drv h) = run drv acts h)
  ∧ poolPromise (fst (getConnection drv h)) = poolPromise h
  ∧ promises (fst (getConnection drv h)) = promises h.
Proof.
  rewrite getConnection_unfold.
  destruct (construct drv (config h)) as [e|].
  - split; [|split; reflexivity].
    exists [DriverCalled (NewConnectionPool (config h));
            ErrorLogged "Database connection error:" e].
    reflexivity.
  - destruct (connect drv _) as [e|fresh]; (split; [|split; reflexivity]).
    + exists [DriverCalled (NewConnectionPool (config h));
              DriverCalled (Connect {| pool_id := length (trace h);
                                       pool_config := config h |});
              ErrorLogged "Database connection error:" e].
      reflexivity.
    + exists [DriverCalled (NewConnectionPool (config h));
              DriverCalled (Connect {| pool_id := length (trace h);
                                       pool_config := config h |})].
      reflexivity.
Qed.

(** C3, refuted.  In the freshly loaded module [getPool] and
    [getConnection] call the driver's constructor with the absent
    configuration.  With a driver that throws on it, the caller receives
    that [TypeError]; with a driver that does not, the caller receives a
    pool. *)
Lemma unconfigured_acquisition_reaches_driver :
  trace (fst (await_getPool (strict (@no_result unit)) initial))
    = [NewConnectionPool None]
  ∧ snd (await_getPool (strict (@no_result unit)) initial) = Thrown TypeError
  ∧ snd (getConnection (strict (@no_result unit)) initial) = Thrown TypeError
  ∧ snd (await_getPool quiet initial)
    = Returned {| pool_id := 0; pool_config := None |}
  ∧ snd (getConnection quiet initial)
    = Returned {| pool_id := 0; pool_config := None |}
  ∧ ¬ unconfigured_acquisition_refused.
Proof.
  repeat (split; [reflexivity|]).
  intros Hclaim.
  destruct (Hclaim (strict no_result) initial eq_refl eq_refl)
    as ([e [He Hname]] & _).
  injection He as <-. discriminate Hname.
Qed.

(** C3, amended.  With no configuration, [getPool] (nothing being cached)
    and [getConnection] construct a pool from the absent configuration: the
    first driver call is [new ConnectionPool(null)].  The call fails exactly
    when the driver's constructor or connect does, and with the driver's
    error; when they succeed, the caller receives the pool. *)
Theorem unconfigured_acquisition_defers_to_driver {R} (drv : Driver R)
    (h : State) :
  config h = None →
  poolPromise h = None →
  (∃ later,
     trace (fst (await_getPool drv h)) =
       trace h ++ NewConnectionPool None :: later)
  ∧ snd (await_getPool drv h) =
      match construct drv None with
      | Some e => Thrown e
      | None =>
          match connect drv {| pool_id := length (trace h);
                               pool_config := None |} with
          | inl e => Thrown e
          | inr ready => Returned ready
          end
      end
  ∧ (∃ later,
       trace (fst (getConnection drv h)) =
         trace h ++ NewConnectionPool None :: later)
  ∧ snd (getConnection drv h) =
      match construct drv None with
      | Some e => Thrown e
      | None =>
          match connect drv {| pool_id := length (trace h);
                               pool_config := None |} with
          | inl e => Thrown e
          | inr fresh => Returned fresh
          end
      end.
Proof.
  intros Hcfg Hc.
  rewrite (await_getPool_fresh drv h Hc), getConnection_unfold, Hcfg.
  destruct (construct drv None) as [e|].
  - simpl. repeat split; try reflexivity; exists []; reflexivity.
  - destruct (connect drv _) as [e|ready]; simpl;
      repeat split; try reflexivity;
      eexists; try reflexivity; rewrite <- app_assoc; reflexivity.
Qed.

Lemma unconfigured_acquisition_defers_to_driver_witness :
  config initial = None
  ∧ poolPromise initial = None
  ∧ snd (await_getPool (strict (@no_result unit)) initial) = Thrown TypeError.
Proof.
  split; [reflexivity|]. split; [reflexivity|].
  exact (proj1 (proj2
    (unconfigured_acquisition_defers_to_driver (strict (@no_result unit))
       initial eq_refl eq_refl))).
Defined.

(** ** Numbers *)

Lemma Prim2SF_zero : Prim2SF 0%float = S754_zero false.
Proof. reflexivity. Qed.

Lemma SFcompare_diag (f : spec_float) :
  SFcompare f f = Some Eq ∨ f = S754_nan.
Proof.
  destruct f as [s|s| |s m e]; simpl; auto.
  - destruct s; auto.
  - left. rewrite Z.compare_refl, Pos.compare_cont_refl.
    destruct s; reflexivity.
Qed.

(** [n === 0] gives [0 === n]. *)
Lemma eqb_zero_sym (n : float) :
  (n =? 0)%float = true → (0 =? n)%float = true.
Proof.
  rewrite !FloatAxioms.eqb_spec, Prim2SF_zero. unfold SFeqb.
  destruct (Prim2SF n) as [s|s| |s m e]; simpl; try discriminate; auto;
    destruct s; discriminate.
Qed.

(** A falsy number is not greater than zero. *)
Lemma falsy_not_positive (n : float) :
  truthy n = false → (0 <? n)%float = false.
Proof.
  unfold truthy, number_truthy, is_nan. intros Hn.
  apply negb_false_iff in Hn. revert Hn.
  rewrite !FloatAxioms.eqb_spec, FloatAxioms.ltb_spec, Prim2SF_zero.
  unfold SFeqb, SFltb.
  destruct (SFcompare_diag (Prim2SF n)) as [-> | ->]; simpl; [|reflexivity].
  rewrite orb_false_r.
  destruct (Prim2SF n) as [s|s| |s m e]; simpl; try discriminate; auto;
    destruct s; discriminate.
Qed.

(** [n || 0] is [n] for a truthy [n] and [0] otherwise; unless [n] is
    [NaN], it is [===] to [n]. *)
Lemma js_or_zero (n : float) :
  js_or (Some n) 0%float = (if ((n =? 0) || is_nan n)%float then 0 else n)%float
  ∧ (is_nan n = false → (js_or (Some n) 0 =? n)%float = true).
Proof.
  unfold js_or, truthy, number_truthy.
  destruct (n =? 0)%float eqn:Hz; simpl.
  - split; [reflexivity|]. intros _. apply eqb_zero_sym, Hz.
  - destruct (is_nan n) eqn:Hnan; simpl; split; try reflexivity;
      try discriminate.
    intros _. unfold is_nan in Hnan. apply negb_false_iff in Hnan. exact Hnan.
Qed.

(** ** ExecutionPrimitive *)

Lemma forEach_bind_parameter {R} (drv : Driver R) (request : Request)
    (ps : list SqlParameter) :
  forEach (bind_parameter drv) request ps
  = forEach (request_input drv) request (verbatim_input <$> ps).
Proof.
  revert request. induction ps as [|param ps IH]; intros request;
    [reflexivity|].
  assert (Hone : bind_parameter drv request param
                 = request_input drv request (verbatim_input param))
    by (unfold bind_parameter, verbatim_input; destruct (type param);
        reflexivity).
  rewrite fmap_cons. simpl forEach. rewrite Hone.
  destruct (request_input drv request (verbatim_input param)) as [e|request'];
    [reflexivity|apply IH].
Qed.

(** When the driver accepts every input, the loop binds them all, in
    order. *)
Lemma forEach_inputs_accepted {R} (drv : Driver R) (request : Request)
    (inputs : list Input) :
  (∀ n i, inputs !! n = Some i →
          input drv {| req_pool := req_pool request;
                       req_inputs := req_inputs request ++ take n inputs |} i
          = None) →
  forEach (request_input drv) request inputs
  = inr {| req_pool := req_pool request;
           req_inputs := req_inputs request ++ inputs |}.
Proof.
  revert request. induction inputs as [|i inputs IH]; intros [pool bound0] Hok.
  - simpl. rewrite app_nil_r. reflexivity.
  - simpl. unfold request_input at 1.
    pose proof (Hok 0 i eq_refl) as H0. simpl in H0.
    rewrite app_nil_r in H0. simpl. rewrite H0, IH.
    + simpl. rewrite <- app_assoc. reflexivity.
    + intros n j Hj. simpl. rewrite <- app_assoc. exact (Hok (S n) j Hj).
Qed.

(** When the driver throws on the input at [n], the loop stops there. *)
Lemma forEach_inputs_rejected {R} (drv : Driver R) (request : Request)
    (inputs : list Input) (n : nat) (i : Input) (e : Err) :
  (∀ m j, m < n → inputs !! m = Some j →
          input drv {| req_pool := req_pool request;
                       req_inputs := req_inputs request ++ take m inputs |} j
          = None) →
  inputs !! n = Some i →
  input drv {| req_pool := req_pool request;
               req_inputs := req_inputs request ++ take n inputs |} i
  = Some e →
  forEach (request_input drv) request inputs = inl e.
Proof.
  revert request n. induction inputs as [|j inputs IH];
    intros [pool bound0] n Hok Hn He; [discriminate Hn|].
  simpl. unfold request_input at 1. destruct n as [|n].
  - injection Hn as ->. simpl in He. rewrite app_nil_r in He.
    simpl. rewrite He. reflexivity.
  - pose proof (Hok 0 j ltac:(lia) eq_refl) as H0. simpl in H0.
    rewrite app_nil_r in H0. simpl. rewrite H0.
    apply (IH _ n); simpl.
    + intros m k Hm Hk. rewrite <- app_assoc.
      exact (Hok (S m) k ltac:(lia) Hk).
    + exact Hn.
    + rewrite <- app_assoc. exact He.
Qed.

Lemma bind_accepted {R} (drv : Driver R) (pool : ConnectionPool)
    (inputs : list Input) :
  accepted drv pool inputs →
  forEach (request_input drv) (pool_request pool) inputs
  = inr {| req_pool := pool; req_inputs := inputs |}.
Proof. intros Hok. apply (forEach_inputs_accepted drv (pool_request pool)), Hok. Qed.

Lemma bind_rejected {R} (drv : Driver R) (pool : ConnectionPool)
    (inputs : list Input) (n : nat) (e : Err) :
  rejected_at drv pool inputs n e →
  forEach (request_input drv) (pool_request pool) inputs = inl e.
Proof.
  intros (Hok & i & Hn & He).
  apply (forEach_inputs_rejected drv (pool_request pool) inputs n i e);
    [|exact Hn|exact He].
  intros m j Hm Hj. simpl.
  specialize (Hok m j). rewrite lookup_take_lt, take_take in Hok by lia.
  replace (m `min` n) with m in Hok by lia. exact (Hok Hj).
Qed.

Lemma executeQuery_unfold {R} (drv : Driver R) (commandType : QueryType)
    (q : string) (parameters : option (list SqlParameter)) (h : State) :
  executeQuery drv commandType q parameters h =
    match await_getPool drv h with
    | (h1, Returned pool) =>
        match forEach (request_input drv) (pool_request pool)
                (verbatim_input <$> default [] parameters) with
        | inl e => (console_error "Query execution error:" e h1, Thrown e)
        | inr request =>
            match commandType with
            | StoredProcedure =>
                match execute drv request q with
                | inr result =>
                    (emit (RequestExecute request q) h1, Returned result)
                | inl e =>
                    (console_error "Query execution error:" e
                       (emit (RequestExecute request q) h1),
                     Thrown e)
                end
            | Text =>
                match query drv request q with
                | inr result =>
                    (emit (RequestQuery request q) h1, Returned result)
                | inl e =>
                    (console_error "Query execution error:" e
                       (emit (RequestQuery request q) h1),
                     Thrown e)
                end
            end
        end
    | (h1, Thrown e) => (console_error "Query execution error:" e h1, Thrown e)
    | (h1, Suspended) => (h1, Suspended)
    end.
Proof.
  unfold executeQuery, try_catch, bind.
  destruct (await_getPool drv h) as [h1 [pool|e|]]; try reflexivity.
  assert (Hreq : match parameters with
                 | Some ps => forEach (bind_parameter drv) (pool_request pool) ps
                 | None => inr (pool_request pool)
                 end
                 = forEach (request_input drv) (pool_request pool)
                     (verbatim_input <$> default [] parameters)).
  { destruct parameters as [ps|]; [|reflexivity].
    apply forEach_bind_parameter. }
  rewrite Hreq.
  destruct (forEach _ _ _) as [e|request]; [reflexivity|].
  destruct commandType; simpl.
  - unfold request_query. destruct (query drv _ _); reflexivity.
  - unfold request_execute. destruct (execute drv _ _); reflexivity.
Qed.

(** The outcome of [executeQuery] once the pool is acquired and the driver
    has accepted every parameter. *)
Lemma executeQuery_bound {R} (drv : Driver R) (commandType : QueryType)
    (q : string) (parameters : option (list SqlParameter))
    (h h1 : State) (ready : ConnectionPool) :
  await_getPool drv h = (h1, Returned ready) →
  accepted drv ready (verbatim_input <$> default [] parameters) →
  executeQuery drv commandType q parameters h =
    match commandType with
    | StoredProcedure =>
        match execute drv (bound ready parameters) q with
        | inr result =>
            (emit (RequestExecute (bound ready parameters) q) h1,
             Returned result)
        | inl e =>
            (console_error "Query execution error:" e
               (emit (RequestExecute (bound ready parameters) q) h1),
             Thrown e)
        end
    | Text =>
        match query drv (bound ready parameters) q with
        | inr result =>
            (emit (RequestQuery (bound ready parameters) q) h1,
             Returned result)
        | inl e =>
            (console_error "Query execution error:" e
               (emit (RequestQuery (bound ready parameters) q) h1),
             Thrown e)
        end
    end.
Proof.
  intros Hacq Hok.
  rewrite executeQuery_unfold, Hacq, (bind_accepted drv ready _ Hok).
  reflexivity.
Qed.

(** The outcome of [executeQuery] when the driver refuses a parameter:
    nothing is dispatched. *)
Lemma executeQuery_refused {R} (drv : Driver R) (commandType : QueryType)
    (q : string) (parameters : option (list SqlParameter))
    (h h1 : State) (ready : ConnectionPool) (n : nat) (e : Err) :
  await_getPool drv h = (h1, Returned ready) →
  rejected_at drv ready (verbatim_input <$> default [] parameters) n e →
  executeQuery drv commandType q parameters h
  = (console_error "Query execution error:" e h1, Thrown e).
Proof.
  intros Hacq Hno.
  rewrite executeQuery_unfold, Hacq, (bind_rejected drv ready _ n e Hno).
  reflexivity.
Qed.

(** Every state [executeQuery] leaves behind is reachable, and in a
    reachable state its caller is resumed, with a result or with an
    error. *)
Lemma executeQuery_run {R} (drv : Driver R) (commandType : QueryType)
    (q : string) (parameters : option (list SqlParameter)) (h : State) :
  ∃ acts, fst (executeQuery drv commandType q parameters h) = run drv acts h.
Proof.
  rewrite executeQuery_unfold.
  destruct (await_getPool_run drv h) as [acts Hacts].
  destruct (await_getPool drv h) as [h1 [ready|e|]]; simpl in Hacts; subst h1.
  - destruct (forEach _ _ _) as [e|request].
    { exists (acts ++ [ErrorLogged "Query execution error:" e]).
      rewrite run_app. reflexivity. }
    destruct commandType.
    + destruct (query drv _ _) as [e|result].
      * exists (acts ++ [DriverCalled (RequestQuery request q);
                         ErrorLogged "Query execution error:" e]).
        rewrite run_app. reflexivity.
      * exists (acts ++ [DriverCalled (RequestQuery request q)]).
        rewrite run_app. reflexivity.
    + destruct (execute drv _ _) as [e|result].
      * exists (acts ++ [DriverCalled (RequestExecute request q);
                         ErrorLogged "Query execution error:" e]).
        rewrite run_app. reflexivity.
      * exists (acts ++ [DriverCalled (RequestExecute request q)]).
        rewrite run_app. reflexivity.
  - exists (acts ++ [ErrorLogged "Query execution error:" e]).
    rewrite run_app. reflexivity.
  - exists acts. reflexivity.
Qed.

Lemma executeQuery_reachable {R} (drv : Driver R) (commandType : QueryType)
    (q : string) (parameters : option (list SqlParameter)) (h : State) :
  reachable drv h →
  reachable drv (fst (executeQuery drv commandType q parameters h)).
Proof.
  intros Hreach.
  destruct (executeQuery_run drv commandType q parameters h) as [acts ->].
  apply reachable_run, Hreach.
Qed.

Lemma executeQuery_settles {R} (drv : Driver R) (commandType : QueryType)
    (q : string) (parameters : option (list SqlParameter)) (h : State) :
  reachable drv h →
  snd (executeQuery drv commandType q parameters h) ≠ Suspended.
Proof.
  intros Hreach. pose proof (await_getPool_settles drv h Hreach) as Hs.
  rewrite executeQuery_unfold.
  destruct (await_getPool drv h) as [h1 [ready|e|]]; simpl in Hs.
  - destruct (forEach _ _ _) as [e|request]; [discriminate|].
    destruct commandType.
    + destruct (query drv _ _); discriminate.
    + destruct (execute drv _ _); discriminate.
  - discriminate.
  - destruct (Hs eq_refl).
Qed.

(** ** ResultShapers *)

(** A shaper that awaits [m] and returns [f] of its result. *)
Lemma bind_ret {A B} (m : Async A) (f : A → B) (h h' : State) (a : A) :
  m h = (h', Returned a) → (let* x := m in ret (f x)) h = (h', Returned (f a)).
Proof. intros Hm. unfold bind, ret. rewrite Hm. reflexivity. Qed.

(** C4, refuted.  The first row has [value = 0], and [executeScalar]
    returns [null], not [0]. *)
Lemma executeScalar_zero_is_null :
  first (recordset zero_count) ≫= (.!! "value") = Some 0%float
  ∧ snd (executeScalar (answering zero_count) Text
           "SELECT COUNT(1) as value FROM Orders" None initial)
    = Returned None
  ∧ ¬ executeScalar_returns_present_value.
Proof.
  split; [reflexivity|]. split; [reflexivity|].
  intros Hclaim.
  specialize (Hclaim (answering zero_count) Text
                "SELECT COUNT(1) as value FROM Orders" None initial
                _ zero_count {[ "value" := 0%float ]} 0%float
                eq_refl eq_refl eq_refl).
  discriminate Hclaim.
Qed.

(** C4, amended.  For every execution outcome, [executeScalar] returns
    [null] when the first record set has no first row (zero rows, or no
    record set) or the first row has no field [value]; when the first row
    has a field [value], it returns that value if the value is truthy and
    [null] if it is falsy. *)
Theorem executeScalar_truthy_value_or_null {T} `{Truthy T}
    (drv : Driver (gmap string T)) (commandType : QueryType) (q : string)
    (parameters : option (list SqlParameter)) (h h' : State)
    (result : IResult (gmap string T)) :
  executeQuery drv commandType q parameters h = (h', Returned result) →
  (recordset result = Some [] ∨ recordset result = None →
     executeScalar drv commandType q parameters h = (h', Returned None))
  ∧ (∀ row rest,
       recordset result = Some (row :: rest) →
       executeScalar drv commandType q parameters h =
         (h', Returned match row !! "value" with
                       | Some v => if truthy v then Some v else None
                       | None => None
                       end)).
Proof.
  intros Hq. unfold executeScalar. rewrite (bind_ret _ _ _ _ _ Hq).
  split.
  - intros [-> | ->]; reflexivity.
  - intros row rest ->. simpl. destruct (row !! "value"); reflexivity.
Qed.

Lemma executeScalar_truthy_value_or_null_witness :
  executeScalar (answering seven_count) Text
    "SELECT COUNT(1) as value FROM Orders" None initial
  = (fst (executeQuery (answering seven_count) Text
            "SELECT COUNT(1) as value FROM Orders" None initial),
     Returned (Some 7%float)).
Proof.
  exact (proj2
    (executeScalar_truthy_value_or_null (answering seven_count) Text
       "SELECT COUNT(1) as value FROM Orders" None initial _ seven_count
       eq_refl)
    {[ "value" := 7%float ]} [] eq_refl).
Defined.

(** C7.  For every execution outcome, [executeDataset] returns a sequence;
    it is the empty sequence when the first record set has zero rows or is
    absent, and the rows of the first record set otherwise.
    [executeMultipleDatasets] returns the empty sequence of sequences when
    the record sets are absent. *)
Theorem executeDataset_empty_sequence {T} (drv : Driver T)
    (commandType : QueryType) (q : string)
    (parameters : option (list SqlParameter)) (h h' : State)
    (result : IResult T) :
  executeQuery drv commandType q parameters h = (h', Returned result) →
  (recordset result = Some [] ∨ recordset result = None →
     executeDataset drv commandType q parameters h = (h', Returned []))
  ∧ (∀ rows, recordset result = Some rows →
       executeDataset drv commandType q parameters h = (h', Returned rows))
  ∧ (recordsets result = None →
       executeMultipleDatasets drv commandType q parameters h
       = (h', Returned []))
  ∧ (∀ sets, recordsets result = Some sets →
       executeMultipleDatasets drv commandType q parameters h
       = (h', Returned sets)).
Proof.
  intros Hq. unfold executeDataset, executeMultipleDatasets.
  rewrite !(bind_ret _ _ _ _ _ Hq).
  split; [intros [-> | ->]; reflexivity|].
  split; [intros rows ->; reflexivity|].
  split; [intros ->; reflexivity|intros sets ->; reflexivity].
Qed.

Lemma executeDataset_empty_sequence_witness :
  executeDataset quiet Text "DELETE FROM Orders" None initial
  = (fst (executeQuery quiet Text "DELETE FROM Orders" None initial),
     Returned []).
Proof.
  exact (proj1
    (executeDataset_empty_sequence quiet Text "DELETE FROM Orders" None
       initial _ no_result eq_refl)
    (or_intror eq_refl)).
Defined.

(** C10.  [executeUpdate] and [executeDelete] are the same function of the
    command kind, the query and the parameters, in every state and for
    every driver: both return the first entry of [rowsAffected], or [0]
    when there is no entry or the entry is zero (or [NaN]), and both fail
    as [executeQuery] does. *)
Theorem executeUpdate_executeDelete_agree {T} (drv : Driver T)
    (commandType : QueryType) (q : string)
    (parameters : option (list SqlParameter)) (h : State) :
  executeUpdate drv commandType q parameters h
  = executeDelete drv commandType q parameters h
  ∧ executeDelete drv commandType q parameters h
    = (fst (executeQuery drv commandType q parameters h),
       map_outcome
         (λ result,
            match rowsAffected result with
            | n :: _ => if ((n =? 0) || is_nan n)%float then 0%float else n
            | [] => 0%float
            end)
         (snd (executeQuery drv commandType q parameters h))).
Proof.
  split; [reflexivity|].
  unfold executeDelete, bind, ret.
  destruct (executeQuery drv commandType q parameters h)
    as [h' [result|e|]]; try reflexivity.
  unfold map_outcome, snd, fst. do 2 f_equal.
  destruct (rowsAffected result) as [|n rest]; [reflexivity|].
  exact (proj1 (js_or_zero n)).
Qed.

(** A name that no object inherits is read from the own properties only. *)
Lemma js_get_own {T} (any : T → JsValue) (row : gmap string T) (key : string) :
  key ∉ Object_prototype → js_get any row key = any <$> row !! key.
Proof.
  intros Hkey. unfold js_get. destruct (row !! key); [reflexivity|].
  destruct (list_find (λ k, k = key) Object_prototype) as [[n k]|] eqn:Hfind;
    [|reflexivity].
  apply list_find_Some in Hfind as (Hn & -> & _).
  destruct Hkey. apply list_elem_of_lookup. eauto.
Qed.

Lemma js_or_identity_field (col : string) (result : IResult (gmap string float)) :
  col ∉ Object_prototype →
  js_or (first (recordset result) ≫= (λ row, js_get VNum row col))
    (VNum 0%float)
  = VNum (identity_field col result).
Proof.
  intros Hcol. unfold identity_field.
  destruct (recordset result) as [[|row rest]|]; try reflexivity.
  simpl. rewrite (js_get_own VNum row col Hcol).
  destruct (row !! col) as [v|]; [|reflexivity].
  simpl. unfold js_or, truthy, any_truthy, truthy, number_truthy.
  destruct ((v =? 0) || is_nan v)%float; reflexivity.
Qed.




Lemma substring_all (s : string) : String.substring 0 (String.length s) s = s.
Proof. induction s as [|c s IH]; simpl; [reflexivity|]. rewrite IH. reflexivity. Qed.

Lemma paramName_strip_marker (param : SqlParameter) :
  paramName param = strip_marker (name param).
Proof.
  unfold paramName, startsWith, substring, strip_marker.
  destruct (name param) as [|c rest]; [reflexivity|].
  simpl. destruct (Ascii.ascii_dec "@"%char c) as [<-|Hne].
  - rewrite Nat.sub_0_r, substring_all. destruct rest; reflexivity.
  - destruct c as [[] [] [] [] [] [] [] []]; try reflexivity.
    destruct Hne. reflexivity.
Qed.

Lemma forEach_bind_return_parameter {R} (drv : Driver R) (request : Request)
    (ps : list SqlParameter) :
  forEach (bind_return_parameter drv) request ps
  = forEach (request_input drv) request (stripped_input <$> ps).
Proof.
  revert request. induction ps as [|param ps IH]; intros request;
    [reflexivity|].
  assert (Hone : bind_return_parameter drv request param
                 = request_input drv request (stripped_input param))
    by (unfold bind_return_parameter, stripped_input;
        rewrite paramName_strip_marker; destruct (type param); reflexivity).
  rewrite fmap_cons. simpl forEach. rewrite Hone.
  destruct (request_input drv request (stripped_input param)) as [e|request'];
    [reflexivity|apply IH].
Qed.

(** C6, refuted.  With the parameters [@id] and [id], which collide once
    the marker is stripped, a driver that refuses to bind a name twice
    throws on the second [request.input]: nothing is executed and the
    caller receives that error. *)
Lemma executeWithReturnValue_collision_not_executed :
  snd (executeWithReturnValue (picky (@no_result unit)) "usp_CloseOrder"
         (Some [ {| name := "@id"; value := VNum 1%float; type := None |};
                 {| name := "id"; value := VNum 2%float; type := None |} ])
         (connected (picky (@no_result unit))))
  = Thrown EDUPEPARAM
  ∧ trace (fst (executeWithReturnValue (picky (@no_result unit))
                  "usp_CloseOrder"
                  (Some [ {| name := "@id"; value := VNum 1%float;
                             type := None |};
                          {| name := "id"; value := VNum 2%float;
                             type := None |} ])
                  (connected (picky (@no_result unit)))))
    = trace (connected (picky (@no_result unit)))
  ∧ ¬ executeWithReturnValue_always_executes.
Proof.
  split; [reflexivity|]. split; [reflexivity|].
  intros Hclaim.
  specialize (Hclaim (picky (@no_result unit)) "usp_CloseOrder"
                (Some [ {| name := "@id"; value := VNum 1%float;
                           type := None |};
                        {| name := "id"; value := VNum 2%float;
                           type := None |} ])
                (connected (picky (@no_result unit))) _ pool0 eq_refl).
  apply (f_equal length) in Hclaim. discriminate Hclaim.
Qed.

(** C6, amended.  Once the pool is acquired, [executeWithReturnValue] binds the
    parameters in order, each under its name with one leading [@] removed
    and every other name verbatim.  When the driver accepts them all, it
    makes exactly one driver call, [request.execute] on the query as given
    (a stored procedure call, whatever the query is), on the request
    holding all these inputs; a failure of the driver is rethrown; the
    value returned is [0] when the procedure result carries no return
    value or the return value [0], and the return value itself when that
    is a truthy value.  When the driver refuses one of the stripped
    inputs, nothing is executed and its error is rethrown. *)
Theorem executeWithReturnValue_strips_marker {R} (drv : Driver R)
    (q : string) (parameters : option (list SqlParameter)) (h h1 : State)
    (pool : ConnectionPool) :
  await_getPool drv h = (h1, Returned pool) →
  (accepted drv pool (stripped_input <$> default [] parameters) →
     trace (fst (executeWithReturnValue drv q parameters h))
     = trace h1 ++
         [RequestExecute
            {| req_pool := pool;
               req_inputs := stripped_input <$> default [] parameters |} q]
     ∧ snd (executeWithReturnValue drv q parameters h)
       = match execute drv
                 {| req_pool := pool;
                    req_inputs := stripped_input <$> default [] parameters |}
                 q
         with
         | inl e => Thrown e
         | inr result =>
             Returned match returnValue result with
                      | VUndefined | VNull => VNum 0%float
                      | v => if truthy v then v else VNum 0%float
                      end
         end)
  ∧ (∀ n e,
       rejected_at drv pool (stripped_input <$> default [] parameters) n e →
       executeWithReturnValue drv q parameters h
       = (console_error "Query execution error:" e h1, Thrown e))
  ∧ (∀ s, strip_marker ("@" +:+ s) = s)
  ∧ (∀ s, startsWith s "@" = false → strip_marker s = s)
  ∧ js_or (Some (VNum 0%float)) (VNum 0%float) = VNum 0%float.
Proof.
  intros Hacq. split; [|split; [|split; [|split]]].
  - intros Hok.
    unfold executeWithReturnValue, try_catch, bind. rewrite Hacq.
    rewrite forEach_bind_return_parameter, (bind_accepted drv pool _ Hok).
    simpl. unfold request_execute.
    destruct (execute drv _ _) as [e|result]; [split; reflexivity|].
    simpl. split; [reflexivity|]. destruct (returnValue result); reflexivity.
  - intros n e Hno.
    unfold executeWithReturnValue, try_catch, bind. rewrite Hacq.
    rewrite forEach_bind_return_parameter, (bind_rejected drv pool _ n e Hno).
    reflexivity.
  - reflexivity.
  - intros s Hs.
    pose proof (paramName_strip_marker
                  {| name := s; value := VNull; type := None |}) as E.
    unfold paramName in E. simpl in E. rewrite Hs in E. symmetry. exact E.
  - reflexivity.
Qed.

Lemma executeWithReturnValue_strips_marker_witness :
  await_getPool (answering returned_nothing)
    (connected (answering returned_nothing))
  = (connected (answering returned_nothing), Returned pool0)
  ∧ accepted (answering returned_nothing) pool0
      [Input3 "id" "Int" (VNum 42%float); Input2 "reason" (VStr "late")]
  ∧ trace (fst (executeWithReturnValue (answering returned_nothing)
                  "usp_CloseOrder"
                  (Some [ {| name := "@id"; value := VNum 42%float;
                             type := Some "Int" |};
                          {| name := "reason"; value := VStr "late";
                             type := None |} ])
                  (connected (answering returned_nothing))))
    = trace (connected (answering returned_nothing)) ++
        [RequestExecute
           {| req_pool := pool0;
              req_inputs :=
                [Input3 "id" "Int" (VNum 42%float);
                 Input2 "reason" (VStr "late")] |}
           "usp_CloseOrder"].
Proof.
  assert (Hok : accepted (answering returned_nothing) pool0
                  [Input3 "id" "Int" (VNum 42%float);
                   Input2 "reason" (VStr "late")])
    by (intros n i _; reflexivity).
  split; [reflexivity|]. split; [exact Hok|].
  exact (proj1 (proj1
    (executeWithReturnValue_strips_marker (answering returned_nothing)
       "usp_CloseOrder"
       (Some [ {| name := "@id"; value := VNum 42%float; type := Some "Int" |};
               {| name := "reason"; value := VStr "late"; type := None |} ])
       (connected (answering returned_nothing)) _ _ eq_refl) Hok)).
Defined.

Lemma exists_query_text (tableName whereClause : string) :
  "SELECT COUNT(1) as value
             FROM " +:+ tableName +:+ "
             WHERE " +:+ whereClause
  = "SELECT COUNT(1) as value" +:+ LF +:+ "             FROM " +:+ tableName
      +:+ LF +:+ "             WHERE " +:+ whereClause.
Proof. reflexivity. Qed.

Lemma count_query_text (tableName : string) :
  "SELECT COUNT(1) as value
               FROM " +:+ tableName
  = "SELECT COUNT(1) as value" +:+ LF +:+ "               FROM " +:+ tableName.
Proof. reflexivity. Qed.

Lemma count_where_query_text (tableName whereClause : string) :
  "SELECT COUNT(1) as value
               FROM " +:+ tableName +:+ "
               WHERE " +:+ whereClause
  = "SELECT COUNT(1) as value" +:+ LF +:+ "               FROM " +:+ tableName
      +:+ LF +:+ "               WHERE " +:+ whereClause.
Proof. reflexivity. Qed.

Lemma executeScalar_count_value (drv : Driver (gmap string float))
    (q : string) (parameters : option (list SqlParameter)) (h h' : State)
    (result : IResult (gmap string float)) :
  executeQuery drv Text q parameters h = (h', Returned result) →
  executeScalar drv Text q parameters h
  = (h', Returned (js_or_null (count_value result))).
Proof.
  intros Hq.
  exact (bind_ret _ (λ r, js_or_null (count_value r)) h h' result Hq).
Qed.

(** What [count] makes of the count [n] the query answered. *)
Lemma count_projection (n : float) :
  js_or (js_or_null (Some n)) 0%float
  = (if ((n =? 0) || is_nan n)%float then 0 else n)%float.
Proof.
  unfold js_or_null, truthy, number_truthy.
  destruct ((n =? 0) || is_nan n)%float eqn:Hn; simpl; [reflexivity|].
  unfold js_or, truthy, number_truthy. rewrite Hn. reflexivity.
Qed.

(** What [exists] makes of it. *)
Lemma exists_projection (n : float) :
  (0 <? js_or (js_or_null (Some n)) 0)%float = (0 <? n)%float.
Proof.
  rewrite count_projection.
  destruct ((n =? 0) || is_nan n)%float eqn:Hn; [|reflexivity].
  symmetry. rewrite falsy_not_positive; [reflexivity|].
  unfold truthy, number_truthy. rewrite Hn. reflexivity.
Qed.

(** C8.  [exists] runs, as [Text], [SELECT COUNT(1) as value FROM <table>
    WHERE <whereClause>] (on three lines) with the caller's parameters, and
    returns whether the field [value] of the first row is greater than 0,
    [false] when there is no such value.  [count] runs the same query with
    its own indentation, without the [WHERE] line when no where clause is
    given, and returns that value ([0] for a zero or [NaN] value, so a
    number [===] to it unless it is [NaN]), [0] when there is no such
    value. *)
Theorem exists_count_of_scalar (drv : Driver (gmap string float))
    (tableName : string) (parameters : option (list SqlParameter))
    (h : State) :
  (∀ whereClause h' result,
     executeQuery drv Text
       ("SELECT COUNT(1) as value" +:+ LF +:+ "             FROM "
          +:+ tableName +:+ LF +:+ "             WHERE " +:+ whereClause)
       parameters h = (h', Returned result) →
     exists_ drv tableName whereClause parameters h
     = (h', Returned match count_value result with
                     | Some n => (0 <? n)%float
                     | None => false
                     end))
  ∧ (∀ h' result,
       executeQuery drv Text
         ("SELECT COUNT(1) as value" +:+ LF +:+ "               FROM "
            +:+ tableName)
         parameters h = (h', Returned result) →
       count drv tableName None parameters h
       = (h', Returned match count_value result with
                       | Some n =>
                           if ((n =? 0) || is_nan n)%float then 0%float else n
                       | None => 0%float
                       end))
  ∧ (∀ c rest h' result,
       executeQuery drv Text
         ("SELECT COUNT(1) as value" +:+ LF +:+ "               FROM "
            +:+ tableName +:+ LF +:+ "               WHERE "
            +:+ String c rest)
         parameters h = (h', Returned result) →
       count drv tableName (Some (String c rest)) parameters h
       = (h', Returned match count_value result with
                       | Some n =>
                           if ((n =? 0) || is_nan n)%float then 0%float else n
                       | None => 0%float
                       end))
  ∧ count drv tableName (Some "") parameters h
    = count drv tableName None parameters h
  ∧ (∀ n : float,
       is_nan n = false →
       ((if ((n =? 0) || is_nan n) then 0 else n) =? n)%float = true).
Proof.
  split; [|split; [|split; [|split]]].
  - intros whereClause h' result Hq.
    unfold exists_. rewrite exists_query_text.
    rewrite (bind_ret _ _ _ _ _ (executeScalar_count_value _ _ _ _ _ _ Hq)).
    destruct (count_value result) as [n|]; [|reflexivity].
    rewrite exists_projection. reflexivity.
  - intros h' result Hq.
    unfold count. cbn [truthy optional_truthy]. rewrite count_query_text.
    rewrite (bind_ret _ _ _ _ _ (executeScalar_count_value _ _ _ _ _ _ Hq)).
    destruct (count_value result) as [n|]; [|reflexivity].
    rewrite count_projection. reflexivity.
  - intros c rest h' result Hq.
    unfold count. cbn [truthy optional_truthy string_truthy default].
    rewrite count_where_query_text.
    rewrite (bind_ret _ _ _ _ _ (executeScalar_count_value _ _ _ _ _ _ Hq)).
    destruct (count_value result) as [n|]; [|reflexivity].
    rewrite count_projection. reflexivity.
  - reflexivity.
  - intros n Hnan. rewrite <- (proj1 (js_or_zero n)).
    apply (proj2 (js_or_zero n)), Hnan.
Qed.

(** [exists] and [count] over a table of seven rows, on a connected pool. *)
Lemma exists_count_of_scalar_witness :
  exists_ (answering seven_count) "Orders" "Status = @s"
    (Some [ {| name := "s"; value := VStr "Open"; type := None |} ])
    (connected (answering seven_count))
  = (fst (executeQuery (answering seven_count) Text
            ("SELECT COUNT(1) as value" +:+ LF +:+ "             FROM "
               +:+ "Orders" +:+ LF +:+ "             WHERE " +:+ "Status = @s")
            (Some [ {| name := "s"; value := VStr "Open"; type := None |} ])
            (connected (answering seven_count))),
     Returned true).
Proof.
  exact (proj1
    (exists_count_of_scalar (answering seven_count) "Orders"
       (Some [ {| name := "s"; value := VStr "Open"; type := None |} ])
       (connected (answering seven_count)))
    "Status = @s" _ seven_count eq_refl).
Defined.

(** * Further properties *)

(** ** The execution primitive, case by case *)

Lemma executeQuery_dispatch {R} (drv : Driver R) (commandType : QueryType)
    (q : string) (parameters : option (list SqlParameter))
    (h h1 : State) (ready : ConnectionPool) :
  await_getPool drv h = (h1, Returned ready) →
  accepted drv ready (verbatim_input <$> default [] parameters) →
  executeQuery drv commandType q parameters h =
    match driver_answer drv commandType (bound ready parameters) q with
    | inr result =>
        (emit (dispatch_event commandType (bound ready parameters) q) h1,
         Returned result)
    | inl e =>
        (console_error "Query execution error:" e
           (emit (dispatch_event commandType (bound ready parameters) q) h1),
         Thrown e)
    end.
Proof.
  intros Hacq Hok.
  rewrite (executeQuery_bound drv _ _ _ h h1 ready Hacq Hok).
  destruct commandType; reflexivity.
Qed.

Lemma executeQuery_no_pool {R} (drv : Driver R) (commandType : QueryType)
    (q : string) (parameters : option (list SqlParameter))
    (h h1 : State) (e : Err) :
  await_getPool drv h = (h1, Thrown e) →
  executeQuery drv commandType q parameters h =
    (console_error "Query execution error:" e h1, Thrown e).
Proof. intros Hacq. rewrite executeQuery_unfold, Hacq. reflexivity. Qed.

(** The state a successful first connect leaves behind. *)
Lemma await_getPool_connects {R} (drv : Driver R) (h : State)
    (ready : ConnectionPool) :
  poolPromise h = None →
  construct drv (config h) = None →
  connect drv {| pool_id := length (trace h); pool_config := config h |}
    = inr ready →
  await_getPool drv h =
    ({| poolPromise := Some (length (promises h));
        config := config h;
        promises := promises h ++ [Fulfilled ready];
        trace :=
          trace h ++
            [NewConnectionPool (config h);
             Connect {| pool_id := length (trace h);
                        pool_config := config h |}];
        console := console h |},
     Returned ready).
Proof.
  intros Hc Hk He. rewrite (await_getPool_fresh drv h Hc), Hk, He.
  reflexivity.
Qed.

(** The state a failed first connect leaves behind. *)
Lemma await_getPool_fails {R} (drv : Driver R) (h : State) (e : Err) :
  poolPromise h = None →
  construct drv (config h) = None →
  connect drv {| pool_id := length (trace h); pool_config := config h |}
    = inl e →
  await_getPool drv h =
    ({| poolPromise := None;
        config := config h;
        promises := promises h ++ [Rejected e];
        trace :=
          trace h ++
            [NewConnectionPool (config h);
             Connect {| pool_id := length (trace h);
                        pool_config := config h |}];
        console := console h ++ [("Database connection failed", e)] |},
     Thrown e).
Proof.
  intros Hc Hk He. rewrite (await_getPool_fresh drv h Hc), Hk, He.
  reflexivity.
Qed.

(** What a statement leaves of the cache: nothing changes. *)
Lemma dispatch_keeps_cache {R} (drv : Driver R) (commandType : QueryType)
    (q : string) (parameters : option (list SqlParameter))
    (h h1 : State) (ready : ConnectionPool) :
  await_getPool drv h = (h1, Returned ready) →
  accepted drv ready (verbatim_input <$> default [] parameters) →
  poolPromise (fst (executeQuery drv commandType q parameters h))
  = poolPromise h1
  ∧ promises (fst (executeQuery drv commandType q parameters h))
    = promises h1
  ∧ config (fst (executeQuery drv commandType q parameters h)) = config h1
  ∧ trace (fst (executeQuery drv commandType q parameters h))
    = trace h1 ++ [dispatch_event commandType (bound ready parameters) q].
Proof.
  intros Hacq Hok.
  rewrite (executeQuery_dispatch drv _ _ _ h h1 ready Hacq Hok).
  destruct (driver_answer drv _ _ _); simpl; auto.
Qed.

(** ** getConnection *)

(** X1.  [getConnection] never reads or writes the shared pool: whatever the
    outcome, the cached promise, the promise heap and the configuration are
    as before.  Every call constructs a pool of its own from the current
    configuration: when the constructor returns, two calls in a row make
    exactly the driver calls [new ConnectionPool(cfg); connect();
    new ConnectionPool(cfg); connect()] on two different pool objects. *)
Theorem getConnection_fresh_each_call {R} (drv : Driver R) (h : State) :
  poolPromise (fst (getConnection drv h)) = poolPromise h
  ∧ promises (fst (getConnection drv h)) = promises h
  ∧ config (fst (getConnection drv h)) = config h
  ∧ (construct drv (config h) = None →
     ∃ p1 p2,
       pool_id p1 ≠ pool_id p2
       ∧ trace (fst (getConnection drv (fst (getConnection drv h))))
         = trace h ++
             [NewConnectionPool (config h); Connect p1;
              NewConnectionPool (config h); Connect p2]).
Proof.
  assert (Hsame : poolPromise (fst (getConnection drv h)) = poolPromise h
                  ∧ promises (fst (getConnection drv h)) = promises h
                  ∧ config (fst (getConnection drv h)) = config h).
  { rewrite getConnection_unfold.
    destruct (construct drv (config h)); [simpl; auto|].
    destruct (connect drv _); simpl; auto. }
  destruct Hsame as (Hc & Hp & Hcfg).
  do 3 (split; [assumption|]).
  intros Hk.
  assert (Ht : trace (fst (getConnection drv h))
               = trace h ++
                   [NewConnectionPool (config h);
                    Connect {| pool_id := length (trace h);
                               pool_config := config h |}]).
  { rewrite getConnection_unfold, Hk.
    destruct (connect drv _); simpl; rewrite <- app_assoc; reflexivity. }
  exists {| pool_id := length (trace h); pool_config := config h |},
         {| pool_id := length (trace h) + 2; pool_config := config h |}.
  split; [simpl; lia|].
  rewrite (getConnection_unfold drv (fst (getConnection drv h))).
  rewrite Hcfg, Hk.
  destruct (connect drv _); simpl; rewrite Ht, length_app; simpl;
    rewrite <- !app_assoc; reflexivity.
Qed.

Lemma getConnection_fresh_each_call_witness :
  construct quiet (config configured) = None
  ∧ ∃ p1 p2,
      pool_id p1 ≠ pool_id p2
      ∧ trace (fst (getConnection quiet (fst (getConnection quiet configured))))
        = trace configured ++
            [NewConnectionPool (config configured); Connect p1;
             NewConnectionPool (config configured); Connect p2].
Proof.
  split; [reflexivity|].
  exact (proj2 (proj2 (proj2 (getConnection_fresh_each_call quiet configured)))
           eq_refl).
Defined.

(** X2.  A [getConnection] that fails logs the error once, under
    [Database connection error:], and rethrows the very error the driver's
    constructor threw or its connect rejected with; one that succeeds logs
    nothing and returns what the connect resolved to.  Either way one pool
    was constructed and nothing was retried. *)
Theorem getConnection_failure_surfaced {R} (drv : Driver R) (h : State) :
  (∀ e, snd (getConnection drv h) = Thrown e →
        console (fst (getConnection drv h))
        = console h ++ [("Database connection error:", e)]
        ∧ (construct drv (config h) = Some e
           ∨ connect drv {| pool_id := length (trace h);
                            pool_config := config h |} = inl e))
  ∧ (∀ fresh, snd (getConnection drv h) = Returned fresh →
        console (fst (getConnection drv h)) = console h
        ∧ connect drv {| pool_id := length (trace h);
                         pool_config := config h |} = inr fresh)
  ∧ snd (getConnection drv h) ≠ Suspended
  ∧ (∃ later,
       trace (fst (getConnection drv h))
       = trace h ++ NewConnectionPool (config h) :: later
       ∧ ∀ cfg, NewConnectionPool cfg ∉ later).
Proof.
  rewrite getConnection_unfold.
  destruct (construct drv (config h)) as [e0|] eqn:Hk.
  - simpl. split; [|split; [|split]].
    + intros e [= <-]. auto.
    + intros fresh [=].
    + discriminate.
    + exists []. split; [reflexivity|]. intros cfg Hin.
      apply elem_of_nil in Hin. exact Hin.
  - destruct (connect drv _) as [e0|fresh0] eqn:He; simpl;
      (split; [|split; [|split]]).
    + intros e [= <-]. auto.
    + intros fresh [=].
    + discriminate.
    + eexists [_]. split; [rewrite <- app_assoc; reflexivity|].
      intros cfg Hin. apply list_elem_of_singleton in Hin. discriminate Hin.
    + intros e [=].
    + intros fresh [= <-]. auto.
    + discriminate.
    + eexists [_]. split; [rewrite <- app_assoc; reflexivity|].
      intros cfg Hin. apply list_elem_of_singleton in Hin. discriminate Hin.
Qed.

Lemma getConnection_failure_surfaced_witness :
  snd (getConnection moody configured) = Thrown ELOGIN
  ∧ console (fst (getConnection moody configured))
    = console configured ++ [("Database connection error:", ELOGIN)].
Proof.
  split; [reflexivity|].
  exact (proj1 (proj1 (getConnection_failure_surfaced moody configured)
                  ELOGIN eq_refl)).
Defined.

(** ** executeQuery and the shared pool *)

(** X3.  Queries share one pool.  From a state with nothing cached, when
    the driver constructs and connects the pool and accepts the parameters
    of both calls, two [executeQuery] calls in a row make exactly four
    driver calls: one construction, one connect, and the two statements,
    both on the pool the connect resolved to, whether or not the first
    statement failed. *)
Theorem executeQuery_reuses_pool {R} (drv : Driver R)
    (kind1 kind2 : QueryType) (q1 q2 : string)
    (ps1 ps2 : option (list SqlParameter)) (h : State)
    (ready : ConnectionPool) :
  poolPromise h = None →
  construct drv (config h) = None →
  connect drv {| pool_id := length (trace h); pool_config := config h |}
    = inr ready →
  accepted drv ready (verbatim_input <$> default [] ps1) →
  accepted drv ready (verbatim_input <$> default [] ps2) →
  trace (fst (executeQuery drv kind2 q2 ps2
                (fst (executeQuery drv kind1 q1 ps1 h))))
  = trace h ++
      [NewConnectionPool (config h);
       Connect {| pool_id := length (trace h); pool_config := config h |};
       dispatch_event kind1 (bound ready ps1) q1;
       dispatch_event kind2 (bound ready ps2) q2].
Proof.
  intros Hc Hk He Hok1 Hok2.
  pose proof (await_getPool_connects drv h ready Hc Hk He) as Hacq.
  destruct (dispatch_keeps_cache drv kind1 q1 ps1 h _ ready Hacq Hok1)
    as (Hc1 & Hp1 & _ & Ht1).
  simpl in Hc1, Hp1, Ht1.
  assert (Hacq1 : await_getPool drv (fst (executeQuery drv kind1 q1 ps1 h))
                  = (fst (executeQuery drv kind1 q1 ps1 h), Returned ready)).
  { apply (await_getPool_ready drv _ (length (promises h))); [exact Hc1|].
    rewrite Hp1, lookup_app_r, Nat.sub_diag by lia. reflexivity. }
  destruct (dispatch_keeps_cache drv kind2 q2 ps2 _ _ ready Hacq1 Hok2)
    as (_ & _ & _ & Ht2).
  rewrite Ht2, Ht1, <- !app_assoc. reflexivity.
Qed.

Lemma executeQuery_reuses_pool_witness :
  poolPromise configured = None
  ∧ accepted refusing pool0 []
  ∧ trace (fst (executeQuery refusing StoredProcedure "usp_Close" None
                  (fst (executeQuery refusing Text "SELECT 1" None
                          configured))))
    = [NewConnectionPool (config configured); Connect pool0;
       RequestQuery (bound pool0 None) "SELECT 1";
       RequestExecute (bound pool0 None) "usp_Close"].
Proof.
  assert (Hok : accepted refusing pool0 []) by (intros n i _; reflexivity).
  split; [reflexivity|]. split; [exact Hok|].
  exact (executeQuery_reuses_pool refusing Text StoredProcedure "SELECT 1"
           "usp_Close" None None configured pool0 eq_refl eq_refl eq_refl
           Hok Hok).
Defined.

(** X4.  When the pool cannot be connected, [executeQuery] dispatches
    nothing: the only driver calls are the construction and the connect.
    The caller receives the connect error unchanged, the error is logged
    twice (by the reaction of [getPool], then by the handler of
    [executeQuery]), and the cache is left empty. *)
Theorem executeQuery_connect_failure {R} (drv : Driver R)
    (commandType : QueryType) (q : string)
    (parameters : option (list SqlParameter)) (h : State) (e : Err) :
  poolPromise h = None →
  construct drv (config h) = None →
  connect drv {| pool_id := length (trace h); pool_config := config h |}
    = inl e →
  executeQuery drv commandType q parameters h =
    ({| poolPromise := None;
        config := config h;
        promises := promises h ++ [Rejected e];
        trace :=
          trace h ++
            [NewConnectionPool (config h);
             Connect {| pool_id := length (trace h);
                        pool_config := config h |}];
        console :=
          console h ++
            [("Database connection failed", e);
             ("Query execution error:", e)] |},
     Thrown e).
Proof.
  intros Hc Hk He.
  rewrite (executeQuery_no_pool drv _ _ _ h _ e
             (await_getPool_fails drv h e Hc Hk He)).
  unfold console_error. simpl. rewrite <- app_assoc. reflexivity.
Qed.

Lemma executeQuery_connect_failure_witness :
  poolPromise configured = None
  ∧ snd (executeQuery moody Text "SELECT 1" None configured) = Thrown ELOGIN
  ∧ console (fst (executeQuery moody Text "SELECT 1" None configured))
    = [("Database connection failed", ELOGIN);
       ("Query execution error:", ELOGIN)].
Proof.
  split; [reflexivity|].
  pose proof (executeQuery_connect_failure moody Text "SELECT 1" None
                configured ELOGIN eq_refl eq_refl eq_refl) as Hq.
  split; [exact (f_equal snd Hq)|exact (f_equal (λ r, console (fst r)) Hq)].
Defined.

(** X5.  A failure after the pool is connected does not cost the pool.
    When the driver accepts the parameters and fails the statement with
    [e], [executeQuery] makes that one driver call, logs [e] once and
    rethrows it; when the driver refuses a parameter with [e], it makes no
    driver call, logs [e] once and rethrows it.  In both cases the cached
    promise and the heap are as they were, so that the next acquisition
    returns the same pool without a driver call. *)
Theorem executeQuery_statement_failure_keeps_pool {R} (drv : Driver R)
    (commandType : QueryType) (q : string)
    (parameters : option (list SqlParameter)) (h : State)
    (d : PromiseId) (ready : ConnectionPool) (e : Err) :
  poolPromise h = Some d →
  promises h !! d = Some (Fulfilled ready) →
  (accepted drv ready (verbatim_input <$> default [] parameters) →
   driver_answer drv commandType (bound ready parameters) q = inl e →
   executeQuery drv commandType q parameters h =
     ({| poolPromise := Some d;
         config := config h;
         promises := promises h;
         trace :=
           trace h ++ [dispatch_event commandType (bound ready parameters) q];
         console := console h ++ [("Query execution error:", e)] |},
      Thrown e))
  ∧ (∀ n,
       rejected_at drv ready (verbatim_input <$> default [] parameters) n e →
       executeQuery drv commandType q parameters h =
         ({| poolPromise := Some d;
             config := config h;
             promises := promises h;
             trace := trace h;
             console := console h ++ [("Query execution error:", e)] |},
          Thrown e))
  ∧ await_getPool drv (fst (executeQuery drv commandType q parameters h))
    = (fst (executeQuery drv commandType q parameters h), Returned ready).
Proof.
  intros Hc Hd.
  pose proof (await_getPool_ready drv h d ready Hc Hd) as Hacq.
  split; [|split].
  - intros Hok Hans.
    rewrite (executeQuery_dispatch drv _ _ _ h h ready Hacq Hok), Hans.
    unfold console_error, emit. simpl. rewrite Hc. reflexivity.
  - intros n Hno.
    rewrite (executeQuery_refused drv _ _ _ h h ready n e Hacq Hno).
    unfold console_error. rewrite Hc. reflexivity.
  - rewrite executeQuery_unfold, Hacq.
    destruct (forEach _ _ _) as [e0|request];
      [apply (await_getPool_ready drv _ d); assumption|].
    destruct commandType.
    + destruct (query drv _ _);
        apply (await_getPool_ready drv _ d); assumption.
    + destruct (execute drv _ _);
        apply (await_getPool_ready drv _ d); assumption.
Qed.

Lemma executeQuery_statement_failure_keeps_pool_witness :
  poolPromise (connected refusing) = Some 0
  ∧ promises (connected refusing) !! 0 = Some (Fulfilled pool0)
  ∧ accepted refusing pool0 []
  ∧ snd (executeQuery refusing Text "SELECT * FROM Missing" None
           (connected refusing))
    = Thrown EREQUEST
  ∧ poolPromise (fst (executeQuery refusing Text "SELECT * FROM Missing" None
                        (connected refusing)))
    = Some 0.
Proof.
  assert (Hok : accepted refusing pool0 []) by (intros n i _; reflexivity).
  split; [reflexivity|]. split; [reflexivity|]. split; [exact Hok|].
  pose proof (proj1 (executeQuery_statement_failure_keeps_pool refusing Text
                       "SELECT * FROM Missing" None (connected refusing) 0
                       pool0 EREQUEST eq_refl eq_refl) Hok eq_refl) as Hq.
  split; [exact (f_equal snd Hq)|exact (f_equal (λ r, poolPromise (fst r)) Hq)].
Defined.

(** X6.  A query after a failed connect reconnects.  When the first connect
    fails with [e], the connect of the next pool succeeds and the driver
    accepts the parameters of the second call, the first [executeQuery]
    throws [e] and the second constructs a second pool object, connects it,
    and dispatches its statement on the pool that connect resolved to; its
    outcome is the driver's answer to that statement. *)
Theorem executeQuery_retries_after_connect_failure {R} (drv : Driver R)
    (kind1 kind2 : QueryType) (q1 q2 : string)
    (ps1 ps2 : option (list SqlParameter)) (h : State) (e : Err)
    (ready : ConnectionPool) :
  poolPromise h = None →
  construct drv (config h) = None →
  connect drv {| pool_id := length (trace h); pool_config := config h |}
    = inl e →
  connect drv {| pool_id := length (trace h) + 2; pool_config := config h |}
    = inr ready →
  accepted drv ready (verbatim_input <$> default [] ps2) →
  snd (executeQuery drv kind1 q1 ps1 h) = Thrown e
  ∧ trace (fst (executeQuery drv kind2 q2 ps2
                  (fst (executeQuery drv kind1 q1 ps1 h))))
    = trace h ++
        [NewConnectionPool (config h);
         Connect {| pool_id := length (trace h); pool_config := config h |};
         NewConnectionPool (config h);
         Connect {| pool_id := length (trace h) + 2;
                    pool_config := config h |};
         dispatch_event kind2 (bound ready ps2) q2]
  ∧ snd (executeQuery drv kind2 q2 ps2
           (fst (executeQuery drv kind1 q1 ps1 h)))
    = match driver_answer drv kind2 (bound ready ps2) q2 with
      | inl e' => Thrown e'
      | inr result => Returned result
      end.
Proof.
  intros Hc Hk He1 He2 Hok.
  rewrite (executeQuery_no_pool drv kind1 q1 ps1 h _ e
             (await_getPool_fails drv h e Hc Hk He1)).
  split; [reflexivity|]. simpl fst.
  assert (Hacq : await_getPool drv
                   (console_error "Query execution error:" e
                      {| poolPromise := None;
                         config := config h;
                         promises := promises h ++ [Rejected e];
                         trace :=
                           trace h ++
                             [NewConnectionPool (config h);
                              Connect {| pool_id := length (trace h);
                                         pool_config := config h |}];
                         console :=
                           console h ++ [("Database connection failed", e)] |})
                 = ({| poolPromise := Some (length (promises h) + 1);
                       config := config h;
                       promises := (promises h ++ [Rejected e])
                                     ++ [Fulfilled ready];
                       trace :=
                         (trace h ++
                            [NewConnectionPool (config h);
                             Connect {| pool_id := length (trace h);
                                        pool_config := config h |}]) ++
                           [NewConnectionPool (config h);
                            Connect {| pool_id := length (trace h) + 2;
                                       pool_config := config h |}];
                       console :=
                         (console h ++ [("Database connection failed", e)])
                           ++ [("Query execution error:", e)] |},
                    Returned ready)).
  { rewrite await_getPool_connects with (ready := ready);
      simpl; rewrite ?length_app; simpl; try reflexivity; assumption. }
  rewrite (executeQuery_dispatch drv kind2 q2 ps2 _ _ ready Hacq Hok).
  destruct (driver_answer drv kind2 (bound ready ps2) q2); simpl;
    rewrite <- !app_assoc; auto.
Qed.

Lemma executeQuery_retries_after_connect_failure_witness :
  poolPromise configured = None
  ∧ accepted moody_counting pool2 []
  ∧ snd (executeQuery moody_counting Text "SELECT 1" None configured)
    = Thrown ELOGIN
  ∧ snd (executeQuery moody_counting Text "SELECT COUNT(1) as value FROM T"
           None
           (fst (executeQuery moody_counting Text "SELECT 1" None configured)))
    = Returned seven_count.
Proof.
  assert (Hok : accepted moody_counting pool2 [])
    by (intros n i _; reflexivity).
  split; [reflexivity|]. split; [exact Hok|].
  pose proof (executeQuery_retries_after_connect_failure moody_counting
                Text Text "SELECT 1" "SELECT COUNT(1) as value FROM T"
                None None configured ELOGIN pool2
                eq_refl eq_refl eq_refl eq_refl Hok) as (Hfirst & _ & Hsecond).
  exact (conj Hfirst Hsecond).
Defined.

(** ** Parameter binding *)



Lemma verbatim_renamed (param : SqlParameter) :
  verbatim_input (renamed param) = stripped_input param.
Proof.
  unfold verbatim_input, stripped_input, renamed. simpl.
  rewrite paramName_strip_marker. reflexivity.
Qed.

(** X8.  [executeWithReturnValue] is [executeQuery] on a stored procedure
    with the parameters renamed: in every state and for every driver it
    leaves the same state (driver calls and log lines included) and ends as
    [executeQuery(StoredProcedure, query, renamed parameters)] does, its
    result being [returnValue || 0] of that call's result. *)
Theorem executeWithReturnValue_as_executeQuery {R} (drv : Driver R)
    (q : string) (parameters : option (list SqlParameter)) (h : State) :
  executeWithReturnValue drv q parameters h
  = (fst (executeQuery drv StoredProcedure q
            (Some (renamed <$> default [] parameters)) h),
     map_outcome
       (λ result,
          match returnValue result with
          | VUndefined | VNull => VNum 0%float
          | v => if truthy v then v else VNum 0%float
          end)
       (snd (executeQuery drv StoredProcedure q
               (Some (renamed <$> default [] parameters)) h))).
Proof.
  rewrite executeQuery_unfold.
  unfold executeWithReturnValue, try_catch, bind.
  destruct (await_getPool drv h) as [h1 [ready|e|]]; try reflexivity.
  rewrite forEach_bind_return_parameter.
  assert (Hinputs : verbatim_input <$>
                      default [] (Some (renamed <$> default [] parameters))
                    = stripped_input <$> default [] parameters).
  { simpl. rewrite <- list_fmap_compose.
    apply list_fmap_ext. intros i param _. apply verbatim_renamed. }
  rewrite Hinputs.
  destruct (forEach _ _ _) as [e|request]; [reflexivity|].
  simpl. unfold request_execute.
  destruct (execute drv _ _) as [e|result]; [reflexivity|].
  simpl. destruct (returnValue result); reflexivity.
Qed.

(** ** Shapers over the execution primitive *)

(** A shaper that projects the result of [m] leaves the state of [m], throws
    what [m] throws and returns for everything [m] returns. *)
Lemma shaper_passthrough {A B} (m : Async A) (f : A → B) (h : State) :
  fst ((let* x := m in ret (f x)) h) = fst (m h)
  ∧ (∀ e, snd ((let* x := m in ret (f x)) h) = Thrown e
          ↔ snd (m h) = Thrown e)
  ∧ snd ((let* x := m in ret (f x)) h) = map_outcome f (snd (m h)).
Proof.
  unfold bind, ret. destruct (m h) as [h' [a|e0|]]; simpl;
    (split; [reflexivity|split; [|reflexivity]]);
    intros e; split; intros He; try discriminate He;
    injection He as <-; reflexivity.
Qed.

Lemma shaper_returned {A B} (m : Async A) (f : A → B) (h h' : State) (b : B) :
  (let* x := m in ret (f x)) h = (h', Returned b) → ∃ a, b = f a.
Proof.
  unfold bind, ret. destruct (m h) as [h1 [a|e|]]; intros [= ? ?].
  exists a. congruence.
Qed.

(** X9.  Missing data is never an error and errors are never swallowed:
    [executeDataset], [executeMultipleDatasets], [executeSingle],
    [executeScalar], [executeUpdate] and [executeDelete] each leave exactly
    the state [executeQuery] leaves on the same arguments, and each throws
    [e] exactly when [executeQuery] throws [e]. *)
Theorem shapers_fail_as_executeQuery {T} `{Truthy T}
    (drv : Driver (gmap string T)) (commandType : QueryType) (q : string)
    (parameters : option (list SqlParameter)) (h : State) :
  (fst (executeDataset drv commandType q parameters h)
   = fst (executeQuery drv commandType q parameters h)
   ∧ ∀ e, snd (executeDataset drv commandType q parameters h) = Thrown e
          ↔ snd (executeQuery drv commandType q parameters h) = Thrown e)
  ∧ (fst (executeMultipleDatasets drv commandType q parameters h)
     = fst (executeQuery drv commandType q parameters h)
     ∧ ∀ e, snd (executeMultipleDatasets drv commandType q parameters h)
            = Thrown e
            ↔ snd (executeQuery drv commandType q parameters h) = Thrown e)
  ∧ (fst (executeSingle drv commandType q parameters h)
     = fst (executeQuery drv commandType q parameters h)
     ∧ ∀ e, snd (executeSingle drv commandType q parameters h) = Thrown e
            ↔ snd (executeQuery drv commandType q parameters h) = Thrown e)
  ∧ (fst (executeScalar drv commandType q parameters h)
     = fst (executeQuery drv commandType q parameters h)
     ∧ ∀ e, snd (executeScalar drv commandType q parameters h) = Thrown e
            ↔ snd (executeQuery drv commandType q parameters h) = Thrown e)
  ∧ (fst (executeUpdate drv commandType q parameters h)
     = fst (executeQuery drv commandType q parameters h)
     ∧ ∀ e, snd (executeUpdate drv commandType q parameters h) = Thrown e
            ↔ snd (executeQuery drv commandType q parameters h) = Thrown e)
  ∧ (fst (executeDelete drv commandType q parameters h)
     = fst (executeQuery drv commandType q parameters h)
     ∧ ∀ e, snd (executeDelete drv commandType q parameters h) = Thrown e
            ↔ snd (executeQuery drv commandType q parameters h) = Thrown e).
Proof.
  unfold executeDataset, executeMultipleDatasets, executeSingle,
    executeScalar, executeUpdate, executeDelete.
  repeat split;
    try (apply shaper_passthrough);
    intros He; eapply shaper_passthrough; exact He.
Qed.

(** X10.  [executeSingle] returns the first element of what
    [executeDataset] returns on the same arguments, and [null] when that
    sequence is empty; the two leave the same state and fail alike.  (Rows
    are objects, which are never falsy.) *)
Theorem executeSingle_head_of_dataset {T} (drv : Driver (gmap string T))
    (commandType : QueryType) (q : string)
    (parameters : option (list SqlParameter)) (h : State) :
  executeSingle drv commandType q parameters h
  = (fst (executeDataset drv commandType q parameters h),
     map_outcome head (snd (executeDataset drv commandType q parameters h))).
Proof.
  unfold executeSingle, executeDataset, bind, ret.
  destruct (executeQuery drv commandType q parameters h)
    as [h' [result|e|]]; try reflexivity.
  simpl. destruct (recordset result) as [[|row rows]|]; reflexivity.
Qed.

(** X11.  [executeScalar] returns the field [value] of the row
    [executeSingle] returns on the same arguments, when that field exists
    and is truthy, and [null] otherwise; the two leave the same state and
    fail alike. *)
Theorem executeScalar_of_executeSingle {T} `{Truthy T}
    (drv : Driver (gmap string T)) (commandType : QueryType) (q : string)
    (parameters : option (list SqlParameter)) (h : State) :
  executeScalar drv commandType q parameters h
  = (fst (executeSingle drv commandType q parameters h),
     map_outcome
       (λ row : option (gmap string T),
          match row with
          | Some fields =>
              match fields !! "value" with
              | Some v => if truthy v then Some v else None
              | None => None
              end
          | None => None
          end)
       (snd (executeSingle drv commandType q parameters h))).
Proof.
  unfold executeScalar, executeSingle, bind, ret.
  destruct (executeQuery drv commandType q parameters h)
    as [h' [result|e|]]; try reflexivity.
  simpl. destruct (recordset result) as [[|row rows]|]; reflexivity.
Qed.

Lemma js_or_zero_usable (a : option float) :
  is_nan (js_or a 0%float) = false
  ∧ (js_or a 0%float = 0%float ∨ truthy (js_or a 0%float) = true).
Proof.
  unfold js_or. destruct a as [v|]; [|split; [reflexivity|left; reflexivity]].
  destruct (truthy v) eqn:Hv; [|split; [reflexivity|left; reflexivity]].
  split; [|right; exact Hv].
  unfold truthy, number_truthy in Hv.
  apply negb_true_iff, orb_false_iff in Hv. apply Hv.
Qed.

Lemma identity_field_js_or (col : string)
    (result : IResult (gmap string float)) :
  identity_field col result
  = js_or (first (recordset result) ≫= (.!! col)) 0%float.
Proof.
  unfold identity_field.
  destruct (recordset result) as [[|row rest]|]; try reflexivity.
  simpl. destruct (row !! col) as [v|]; [|reflexivity].
  symmetry. exact (proj1 (js_or_zero v)).
Qed.

(** X12.  The numbers [executeUpdate], [executeDelete] and [count] return
    are never [NaN]: each is [0] or a truthy number, whatever the driver
    answered.  The same holds of what [executeInsert] returns, for every
    identity column name that is not the name of a member every object
    inherits. *)
Theorem number_shapers_never_NaN (drv : Driver (gmap string float))
    (commandType : QueryType) (q tableName : string)
    (parameters : option (list SqlParameter))
    (identityColumnName whereClause : option string) (h h' : State) :
  (∀ r : float,
     executeUpdate drv commandType q parameters h = (h', Returned r)
     ∨ executeDelete drv commandType q parameters h = (h', Returned r)
     ∨ count drv tableName whereClause parameters h = (h', Returned r) →
     is_nan r = false ∧ (r = 0%float ∨ truthy r = true))
  ∧ (∀ v : JsValue,
       executeInsert drv commandType q parameters identityColumnName h
       = (h', Returned v) →
       default "Id" identityColumnName ∉ Object_prototype →
       ∃ r : float,
         v = VNum r ∧ is_nan r = false ∧ (r = 0%float ∨ truthy r = true)).
Proof.
  split.
  - intros r [Hr | [Hr | Hr]];
      apply shaper_returned in Hr as [a ->]; apply js_or_zero_usable.
  - intros v Hv Hcol. apply shaper_returned in Hv as [a ->].
    rewrite (js_or_identity_field _ a Hcol).
    eexists. split; [reflexivity|].
    rewrite identity_field_js_or. apply js_or_zero_usable.
Qed.

Lemma number_shapers_never_NaN_witness :
  count (answering zero_count) "Orders" None None initial
  = (fst (count (answering zero_count) "Orders" None None initial),
     Returned 0%float)
  ∧ is_nan 0%float = false.
Proof.
  split; [reflexivity|].
  exact (proj1
    (proj1 (number_shapers_never_NaN (answering zero_count) Text "" "Orders"
              None None None initial _)
       0%float (or_intror (or_intror eq_refl)))).
Defined.

(** ** exists and count *)

(** X13.  [exists] agrees with [count]: for a non-empty where clause, when
    the driver answers the query of [exists] and the query of [count] (the
    same statement, indented differently) with the same [value], [exists]
    returns whether the number [count] returns is greater than 0. *)
Theorem exists_agrees_with_count (drv : Driver (gmap string float))
    (tableName : string) (c : ascii) (rest : string)
    (parameters : option (list SqlParameter)) (h h1 h2 : State)
    (answer1 answer2 : IResult (gmap string float)) :
  executeQuery drv Text
    ("SELECT COUNT(1) as value" +:+ LF +:+ "             FROM "
       +:+ tableName +:+ LF +:+ "             WHERE " +:+ String c rest)
    parameters h = (h1, Returned answer1) →
  executeQuery drv Text
    ("SELECT COUNT(1) as value" +:+ LF +:+ "               FROM "
       +:+ tableName +:+ LF +:+ "               WHERE " +:+ String c rest)
    parameters h = (h2, Returned answer2) →
  count_value answer1 = count_value answer2 →
  ∃ n,
    count drv tableName (Some (String c rest)) parameters h
    = (h2, Returned n)
    ∧ exists_ drv tableName (String c rest) parameters h
      = (h1, Returned (0 <? n)%float).
Proof.
  intros Hq1 Hq2 Hsame.
  exists (js_or (js_or_null (count_value answer2)) 0%float). split.
  - unfold count. cbn [truthy optional_truthy string_truthy default].
    rewrite count_where_query_text.
    exact (bind_ret _ (λ result, js_or result 0%float) _ _ _
             (executeScalar_count_value _ _ _ _ _ _ Hq2)).
  - unfold exists_. rewrite exists_query_text, <- Hsame.
    exact (bind_ret _ (λ result, (0 <? js_or result 0)%float) _ _ _
             (executeScalar_count_value _ _ _ _ _ _ Hq1)).
Qed.

Lemma exists_agrees_with_count_witness :
  ∃ n,
    snd (count (answering seven_count) "Orders" (Some "Status = @s") None
           (connected (answering seven_count)))
    = Returned n
    ∧ snd (exists_ (answering seven_count) "Orders" "Status = @s" None
             (connected (answering seven_count)))
      = Returned (0 <? n)%float.
Proof.
  destruct (exists_agrees_with_count (answering seven_count) "Orders"
              "S"%char "tatus = @s" None (connected (answering seven_count))
              _ _ seven_count seven_count eq_refl eq_refl eq_refl)
    as (n & Hcount & Hexists).
  exists n. split.
  - exact (f_equal snd Hcount).
  - exact (f_equal snd Hexists).
Defined.

(** X14.  An empty where clause is not treated alike: once the pool is
    acquired and the driver has accepted the parameters, [exists] with the
    empty where clause still sends the [WHERE] line, with nothing after it,
    while [count] with the empty where clause sends the query without the
    [WHERE] line, as it does when the clause is omitted. *)
Theorem empty_where_clause (drv : Driver (gmap string float))
    (tableName : string) (parameters : option (list SqlParameter))
    (h h1 : State) (ready : ConnectionPool) :
  await_getPool drv h = (h1, Returned ready) →
  accepted drv ready (verbatim_input <$> default [] parameters) →
  trace (fst (exists_ drv tableName "" parameters h))
  = trace h1 ++
      [RequestQuery (bound ready parameters)
         ("SELECT COUNT(1) as value" +:+ LF +:+ "             FROM "
            +:+ tableName +:+ LF +:+ "             WHERE ")]
  ∧ trace (fst (count drv tableName (Some "") parameters h))
    = trace h1 ++
        [RequestQuery (bound ready parameters)
           ("SELECT COUNT(1) as value" +:+ LF +:+ "               FROM "
              +:+ tableName)]
  ∧ count drv tableName (Some "") parameters h
    = count drv tableName None parameters h.
Proof.
  intros Hacq Hok. split; [|split; [|reflexivity]].
  - unfold exists_, executeScalar.
    rewrite (proj1 (shaper_passthrough _ _ h)).
    rewrite (proj1 (shaper_passthrough _ _ h)).
    exact (proj2 (proj2 (proj2
             (dispatch_keeps_cache drv Text _ parameters h h1 ready Hacq
                Hok)))).
  - unfold count, executeScalar. cbn [truthy optional_truthy string_truthy].
    rewrite (proj1 (shaper_passthrough _ _ h)).
    rewrite (proj1 (shaper_passthrough _ _ h)).
    exact (proj2 (proj2 (proj2
             (dispatch_keeps_cache drv Text _ parameters h h1 ready Hacq
                Hok)))).
Qed.

Lemma empty_where_clause_witness :
  await_getPool (answering seven_count) (connected (answering seven_count))
  = (connected (answering seven_count), Returned pool0)
  ∧ accepted (answering seven_count) pool0 []
  ∧ trace (fst (exists_ (answering seven_count) "Orders" "" None
                  (connected (answering seven_count))))
    = trace (connected (answering seven_count)) ++
        [RequestQuery (bound pool0 None)
           ("SELECT COUNT(1) as value" +:+ LF +:+ "             FROM "
              +:+ "Orders" +:+ LF +:+ "             WHERE ")].
Proof.
  assert (Hok : accepted (answering seven_count) pool0 [])
    by (intros n i _; reflexivity).
  split; [reflexivity|]. split; [exact Hok|].
  exact (proj1 (empty_where_clause (answering seven_count) "Orders" None
                  (connected (answering seven_count)) _ pool0 eq_refl Hok)).
Defined.

(** ** The pool over time *)

Lemma live_is_cached_initial : live_is_cached initial.
Proof. intros d s. simpl. rewrite lookup_nil. discriminate. Qed.

Lemma live_is_cached_step {R} (drv : Driver R) (a : Action) (h : State) :
  pool_invariant h → live_is_cached h → live_is_cached (step drv a h).
Proof.
  intros [Inv1 _] Live. destruct a as [cfg| |d|ev|msg e]; simpl;
    try exact Live.
  - destruct (poolPromise h) as [c|] eqn:Hc.
    + rewrite (getPool_cached drv h c Hc). exact Live.
    + destruct (construct drv (config h)) as [e|] eqn:He.
      * rewrite (getPool_throws drv h e Hc He). intros d s Hs.
        destruct (Live d s Hs) as [Hrej|Hcached]; [left; exact Hrej|].
        congruence.
      * rewrite (getPool_fresh drv h Hc He). intros d s. simpl. intros Hs.
        destruct (decide (d < length (promises h))) as [Hlt|Hge].
        -- rewrite lookup_app_l in Hs by exact Hlt.
           destruct (Live d s Hs) as [Hrej|Hcached]; [left; exact Hrej|].
           congruence.
        -- right. f_equal. apply lookup_lt_Some in Hs.
           rewrite length_app in Hs. simpl in Hs. lia.
  - destruct (promises h !! d) as [[p| |]|] eqn:Hd;
      try (rewrite settle_not_pending by (intros ?; congruence); exact Live).
    destruct (Inv1 d p Hd) as [Hc _].
    assert (Hlt : d < length (promises h))
      by (eapply lookup_lt_Some; exact Hd).
    assert (Hothers : ∀ d' s, d' ≠ d → promises h !! d' = Some s →
                              ∃ e, s = Rejected e).
    { intros d' s Hne Hs.
      destruct (Live d' s Hs) as [Hrej|Hcached]; [exact Hrej|congruence]. }
    destruct (connect drv p) as [e|ready] eqn:He.
    + rewrite (settle_pending_rejected drv h d p e Hd He).
      intros d' s. simpl. intros Hs. left.
      destruct (decide (d' = d)) as [->|Hne].
      * rewrite list_lookup_insert_eq in Hs by exact Hlt.
        injection Hs as <-. eauto.
      * rewrite list_lookup_insert_ne in Hs by congruence. eauto.
    + rewrite (settle_pending_fulfilled drv h d p ready Hd He).
      intros d' s. simpl. intros Hs.
      destruct (decide (d' = d)) as [->|Hne]; [right; exact Hc|].
      rewrite list_lookup_insert_ne in Hs by congruence. left. eauto.
Qed.

Lemma live_is_cached_run {R} (drv : Driver R) (acts : list Action) (h : State) :
  pool_invariant h → live_is_cached h → live_is_cached (run drv acts h).
Proof.
  revert h. induction acts as [|a acts IH]; intros h Inv Live; [exact Live|].
  rewrite run_cons. apply IH.
  - apply pool_invariant_step, Inv.
  - apply live_is_cached_step; assumption.
Qed.

(** X15.  At most one pool is alive.  In every reachable state, every
    promise [getPool] ever created is rejected or is the one in the cache;
    so no two promises that are pending or fulfilled coexist, and a pool
    that was connected is never replaced. *)
Theorem at_most_one_live_pool {R} (drv : Driver R) (h : State) :
  reachable drv h →
  (∀ d s, promises h !! d = Some s →
          (∃ e, s = Rejected e) ∨ poolPromise h = Some d)
  ∧ (∀ d1 d2 s1 s2,
       promises h !! d1 = Some s1 → promises h !! d2 = Some s2 →
       (∀ e, s1 ≠ Rejected e) → (∀ e, s2 ≠ Rejected e) →
       d1 = d2).
Proof.
  intros [acts ->].
  pose proof (live_is_cached_run drv acts initial
                (pool_invariant_initial) live_is_cached_initial) as Live.
  split; [exact Live|].
  intros d1 d2 s1 s2 H1 H2 Hn1 Hn2.
  destruct (Live d1 s1 H1) as [[e ->]|Hc1]; [destruct (Hn1 e eq_refl)|].
  destruct (Live d2 s2 H2) as [[e ->]|Hc2]; [destruct (Hn2 e eq_refl)|].
  congruence.
Qed.

Lemma at_most_one_live_pool_witness :
  reachable moody
    (run moody [CallGetPool; Settle 0; CallGetPool; Settle 1; CallGetPool]
       initial)
  ∧ poolPromise
      (run moody [CallGetPool; Settle 0; CallGetPool; Settle 1; CallGetPool]
         initial)
    = Some 1.
Proof.
  assert (Hr : reachable moody
                 (run moody
                    [CallGetPool; Settle 0; CallGetPool; Settle 1; CallGetPool]
                    initial))
    by (eexists; reflexivity).
  split; [exact Hr|].
  destruct (proj1 (at_most_one_live_pool moody _ Hr) 1
              (Fulfilled {| pool_id := 2; pool_config := None |}) eq_refl)
    as [[e He]|Hc]; [discriminate He|exact Hc].
Defined.

(** X16.  The shared pool keeps the configuration it was created with.
    Once the pool is connected, calling [initialize] again changes the
    stored configuration only: the next acquisition returns the same pool
    without a driver call, a statement whose parameters the driver accepts
    goes to that pool, and only [getConnection] constructs a pool from the
    new configuration. *)
Theorem reinitialize_keeps_pool {R} (drv : Driver R) (cfg : SqlConfig)
    (h : State) (d : PromiseId) (ready : ConnectionPool) :
  poolPromise h = Some d →
  promises h !! d = Some (Fulfilled ready) →
  await_getPool drv (initialize cfg h) = (initialize cfg h, Returned ready)
  ∧ (∀ commandType q parameters,
       accepted drv ready (verbatim_input <$> default [] parameters) →
       trace (fst (executeQuery drv commandType q parameters
                     (initialize cfg h)))
       = trace h ++ [dispatch_event commandType (bound ready parameters) q])
  ∧ (∃ later,
       trace (fst (getConnection drv (initialize cfg h)))
       = trace h ++ NewConnectionPool (config (initialize cfg h)) :: later).
Proof.
  intros Hc Hd.
  assert (Hacq : await_getPool drv (initialize cfg h)
                 = (initialize cfg h, Returned ready))
    by (apply (await_getPool_ready drv _ d); assumption).
  split; [exact Hacq|]. split.
  - intros commandType q parameters Hok.
    exact (proj2 (proj2 (proj2
             (dispatch_keeps_cache drv commandType q parameters _ _ ready
                Hacq Hok)))).
  - rewrite getConnection_unfold.
    destruct (construct drv _); [exists []; reflexivity|].
    destruct (connect drv _); simpl; eexists; rewrite <- app_assoc;
      reflexivity.
Qed.

Lemma reinitialize_keeps_pool_witness :
  poolPromise (connected quiet) = Some 0
  ∧ promises (connected quiet) !! 0 = Some (Fulfilled pool0)
  ∧ await_getPool quiet
      (initialize {| user := "other"; password := ""; server := "replica";
                     database := "Shop"; options := None; pool := None |}
         (connected quiet))
    = (initialize {| user := "other"; password := ""; server := "replica";
                     database := "Shop"; options := None; pool := None |}
         (connected quiet),
       Returned pool0).
Proof.
  split; [reflexivity|]. split; [reflexivity|].
  exact (proj1 (reinitialize_keeps_pool quiet _ (connected quiet) 0 pool0
                  eq_refl eq_refl)).
Defined.

Lemma js_spread_again {T} (base : gmap string T)
    (overlay : option (gmap string T)) :
  js_spread base (Some (js_spread base overlay)) = js_spread base overlay.
Proof.
  apply map_eq. intros k. rewrite !js_spread_lookup. simpl.
  rewrite js_spread_lookup.
  destruct (overlay ≫= (.!! k)); [reflexivity|].
  destruct (base !! k); reflexivity.
Qed.

(** X17.  [initialize] does not merge with what was stored before, and it
    is idempotent on what it stores: the last call wins whatever the
    earlier configuration was, and initialising again with the stored
    configuration (defaults filled in) changes nothing. *)
Theorem initialize_last_wins_and_is_idempotent (cfg earlier : SqlConfig)
    (h : State) :
  initialize cfg (initialize earlier h) = initialize cfg h
  ∧ ∀ stored,
      config (initialize cfg h) = Some stored →
      initialize stored (initialize cfg h) = initialize cfg h.
Proof.
  split; [reflexivity|].
  intros stored [= <-]. unfold initialize, set_config. simpl.
  rewrite !js_spread_again. reflexivity.
Qed.

Lemma settled_step {R} (drv : Driver R) (a : Action) (h : State)
    (d : PromiseId) (s : PromiseState) :
  promises h !! d = Some s → (∀ p, s ≠ Pending p) →
  promises (step drv a h) !! d = Some s.
Proof.
  intros Hd Hs. destruct a as [cfg| |d'|ev|msg e]; simpl; try exact Hd.
  - unfold getPool. destruct (poolPromise h); [exact Hd|].
    destruct (construct drv (config h)); [exact Hd|].
    simpl. apply lookup_app_l_Some, Hd.
  - unfold settle. destruct (promises h !! d') as [[p| |]|] eqn:Hd';
      try exact Hd.
    assert (d' ≠ d) by (intros ->; rewrite Hd in Hd'; injection Hd' as ->;
                        destruct (Hs p eq_refl)).
    destruct (connect drv p); simpl;
      rewrite list_lookup_insert_ne by assumption; exact Hd.
Qed.

(** X18.  A promise of [getPool] settles once.  Whatever callers and the
    driver do afterwards (a retry, a later success or failure included), a
    promise that was rejected with [e] stays rejected with [e] and a
    promise that was fulfilled with a pool stays fulfilled with it; a
    caller that awaits it later receives that same error or pool, and the
    await changes nothing. *)
Theorem settled_promise_is_final {R} (drv : Driver R) (h : State)
    (d : PromiseId) (later : list Action) :
  (∀ e, promises h !! d = Some (Rejected e) →
        promises (run drv later h) !! d = Some (Rejected e)
        ∧ await drv d (run drv later h) = (run drv later h, Thrown e))
  ∧ (∀ ready, promises h !! d = Some (Fulfilled ready) →
        promises (run drv later h) !! d = Some (Fulfilled ready)
        ∧ await drv d (run drv later h) = (run drv later h, Returned ready)).
Proof.
  assert (Hkeep : ∀ s, (∀ p, s ≠ Pending p) → ∀ acts h0,
            promises h0 !! d = Some s →
            promises (run drv acts h0) !! d = Some s).
  { intros s Hs acts. induction acts as [|a acts IH]; intros h0 Hd;
      [exact Hd|].
    rewrite run_cons. apply IH, settled_step; assumption. }
  split.
  - intros e Hd.
    assert (Hd' := Hkeep (Rejected e) ltac:(discriminate) later h Hd).
    split; [exact Hd'|].
    unfold await. rewrite settle_not_pending by (intros ?; congruence).
    rewrite Hd'. reflexivity.
  - intros ready Hd.
    assert (Hd' := Hkeep (Fulfilled ready) ltac:(discriminate) later h Hd).
    split; [exact Hd'|]. apply await_fulfilled, Hd'.
Qed.

Lemma settled_promise_is_final_witness :
  promises (settle moody 0 connecting) !! 0 = Some (Rejected ELOGIN)
  ∧ await moody 0
      (run moody [CallGetPool; Settle 1] (settle moody 0 connecting))
    = (run moody [CallGetPool; Settle 1] (settle moody 0 connecting),
       Thrown ELOGIN).
Proof.
  split; [reflexivity|].
  exact (proj2 (proj1 (settled_promise_is_final moody
                         (settle moody 0 connecting) 0
                         [CallGetPool; Settle 1])
                  ELOGIN eq_refl)).
Defined.
